(** * collab-notes-api: the real-time session layer

    A shallow embedding of [src/sockets/socketHandler.ts] (the socket.io
    handlers and the two process-wide tables they mutate) and of
    [isUserAuthorized] from [src/models/Note.ts], followed by the
    properties of the specification that concern them.

    Conventions of the embedding.
    - The two module-level [Map]s, [noteRooms] and [userSockets], are
      finite maps keyed by strings.  [NoteRoom.users] is a JavaScript
      array and stays a list: its order is observable in every roster
      that is sent out.
    - socket.io's own bookkeeping, which the handlers read and write
      through [socket.rooms], [socket.join], [socket.leave],
      [socket.to(room)] and [io.to(room)], is a third table from socket
      id to the socket's user and its ordered set of rooms.
    - A handler is a function from the state before to the state after
      together with the list of emissions it performed, oldest first.
      The handlers [await] exactly once, on [Note.findById], and run to
      completion afterwards; the outcome of that lookup is an argument
      of the handler.  Events reach a handler only through a live
      socket: a handler applied to a socket id that is not connected
      does nothing. *)

From Stdlib Require Import ZArith String Ascii List.
From stdpp Require Import base option list gmap strings fin_maps fin_sets.

Open Scope string_scope.
Open Scope list_scope.

(** ** JavaScript string primitives used by the handlers *)

(** [s.startsWith(p)]. *)
Definition startsWith (s p : string) : bool := String.prefix p s.

(** [s.slice(n)] for a non-negative [n]. *)
Fixpoint string_drop (n : nat) (s : string) : string :=
  match n, s with
  | O, _ => s
  | S _, EmptyString => EmptyString
  | S n', String _ s' => string_drop n' s'
  end.

(** [s.replace(pat, rep)] with a string pattern: only the first
    occurrence of [pat] is replaced.  The handlers call it with the
    empty string as replacement, which contains no [$] pattern. *)
Fixpoint replace (pat rep s : string) : string :=
  if String.prefix pat s then rep +:+ string_drop (String.length pat) s
  else match s with
       | EmptyString => s
       | String c s' => String c (replace pat rep s')
       end.

(** The name of the socket.io room of a note: [`note:${noteId}`]. *)
Definition roomName (noteId : string) : string := "note:" +:+ noteId.

(** ** src/models/Note.ts *)

Inductive Role := read | write.

#[global] Instance Role_eq_dec : EqDecision Role.
Proof. solve_decision. Defined.

(** [ICollaborator]; [addedAt] is never read by the code embedded here. *)
Module ICollaborator.
Record t := mk { user : string; role : Role }.
End ICollaborator.

(** [INote], restricted to the fields [isUserAuthorized] reads.  Object
    ids appear through [toString()], as strings. *)
Module INote.
Record t := mk { owner : string; collaborators : list ICollaborator.t }.
End INote.

Definition isUserAuthorized (this : INote.t) (userId : string) (requiredRole : Role) : bool :=
  if bool_decide (INote.owner this = userId) then true
  else
    match List.find (fun c => bool_decide (ICollaborator.user c = userId))
                    (INote.collaborators this) with
    | None => false
    | Some collaborator =>
        match requiredRole with
        | read => true
        | write => bool_decide (ICollaborator.role collaborator = write)
        end
    end.

(** ** src/types/index.ts *)

Module AuthPayload.
Record t := mk { userId : string; username : string; email : string }.
End AuthPayload.

Module SocketUser.
Record t := mk { userId : string; username : string; socketId : string }.
End SocketUser.

Module NoteRoom.
Record t := mk { noteId : string; users : list SocketUser.t }.
End NoteRoom.

#[global] Instance AuthPayload_eq_dec : EqDecision AuthPayload.t.
Proof. solve_decision. Defined.
#[global] Instance SocketUser_eq_dec : EqDecision SocketUser.t.
Proof. solve_decision. Defined.
#[global] Instance NoteRoom_eq_dec : EqDecision NoteRoom.t.
Proof. solve_decision. Defined.

(** The object literal [{ userId, username }] that every roster and
    every [user] / [modifiedBy] field is built from. *)
Module ActiveUser.
Record t := mk { userId : string; username : string }.
End ActiveUser.

#[global] Instance ActiveUser_eq_dec : EqDecision ActiveUser.t.
Proof. solve_decision. Defined.

(** [u => ({ userId: u.userId, username: u.username })]. *)
Definition toActiveUser (u : SocketUser.t) : ActiveUser.t :=
  ActiveUser.mk (SocketUser.userId u) (SocketUser.username u).

(** [room.users.map(u => ({ userId: u.userId, username: u.username }))]. *)
Definition activeUsers (users : list SocketUser.t) : list ActiveUser.t :=
  map toActiveUser users.

(** The same literal built from [socket.user]. *)
Definition userOf (u : AuthPayload.t) : ActiveUser.t :=
  ActiveUser.mk (AuthPayload.userId u) (AuthPayload.username u).

(** ** State *)

(** What socket.io keeps for a connected socket and the handlers use:
    [socket.user] (set by the authentication middleware) and
    [socket.rooms], a [Set] iterated in insertion order. *)
Module Socket.
Record t := mk { user : AuthPayload.t; rooms : list string }.
End Socket.

Record State := mkState {
  noteRooms : gmap string NoteRoom.t;      (* const noteRooms = new Map<string, NoteRoom>() *)
  userSockets : gmap string string;        (* const userSockets = new Map<string, string>() *)
  sockets : gmap string Socket.t           (* the connected sockets, by socket.id *)
}.

Definition initial : State := mkState ∅ ∅ ∅.

Definition with_noteRooms (f : gmap string NoteRoom.t → gmap string NoteRoom.t) (st : State) : State :=
  mkState (f (noteRooms st)) (userSockets st) (sockets st).

Definition with_userSockets (f : gmap string string → gmap string string) (st : State) : State :=
  mkState (noteRooms st) (f (userSockets st)) (sockets st).

Definition with_sockets (f : gmap string Socket.t → gmap string Socket.t) (st : State) : State :=
  mkState (noteRooms st) (userSockets st) (f (sockets st)).

(** ** Emissions *)

(** The three ways the handlers address an emission: [socket.emit],
    [io.to(room).emit] and [socket.to(room).emit]. *)
Inductive Target :=
| ToSocket (socketId : string)
| ToRoom (room : string)
| ToRoomExcept (room sender : string).

Inductive Payload :=
| error (message : string)
| user_joined (user : ActiveUser.t) (activeUsers : list ActiveUser.t)
| joined_note (noteId : string) (activeUsers : list ActiveUser.t)
| user_left (userId : string) (activeUsers : list ActiveUser.t)
| note_updated (noteId content : string) (title : option string)
               (modifiedBy : ActiveUser.t) (timestamp : Z)
| cursor_updated (user : ActiveUser.t) (position : Z) (selection : option (Z * Z)).

(** One call of [emit]: how it was addressed, the sockets socket.io
    resolves that address to at the moment of the call, and what was
    sent. *)
Record Emission := mkEmission {
  target : Target;
  recipients : gset string;
  payload : Payload
}.

#[global] Instance Target_eq_dec : EqDecision Target.
Proof. solve_decision. Defined.
#[global] Instance Payload_eq_dec : EqDecision Payload.
Proof. solve_decision. Defined.
#[global] Instance Emission_eq_dec : EqDecision Emission.
Proof. solve_decision. Defined.

(** The sockets currently joined to a socket.io room. *)
Definition room_sockets (st : State) (room : string) : gset string :=
  dom (filter (λ kv : string * Socket.t, room ∈ Socket.rooms kv.2) (sockets st)).

(** [socket.emit(...)]. *)
Definition socket_emit (socketId : string) (p : Payload) : Emission :=
  mkEmission (ToSocket socketId) {[ socketId ]} p.

(** [io.to(room).emit(...)]. *)
Definition io_to (st : State) (room : string) (p : Payload) : Emission :=
  mkEmission (ToRoom room) (room_sockets st room) p.

(** [socket.to(room).emit(...)]: the room without the sender. *)
Definition socket_to (st : State) (socketId room : string) (p : Payload) : Emission :=
  mkEmission (ToRoomExcept room socketId) (room_sockets st room ∖ {[ socketId ]}) p.

(** [socket.join(room)]: adding to a [Set] keeps an element that is
    already there where it is. *)
Definition socket_join (socketId room : string) (st : State) : State :=
  with_sockets
    (alter (λ sk, Socket.mk (Socket.user sk)
                    (if decide (room ∈ Socket.rooms sk) then Socket.rooms sk
                     else Socket.rooms sk ++ [room])) socketId) st.

(** [socket.leave(room)]. *)
Definition socket_leave (socketId room : string) (st : State) : State :=
  with_sockets
    (alter (λ sk, Socket.mk (Socket.user sk)
                    (filter (λ r, r ≠ room) (Socket.rooms sk))) socketId) st.

(** ** src/sockets/socketHandler.ts *)

(** [handleUserLeaveRoom(noteId, userId, io)]. *)
Definition handleUserLeaveRoom (noteId userId : string) (st : State)
  : State * list Emission :=
  match noteRooms st !! noteId with
  | None => (st, [])
  | Some room =>
      (* room.users = room.users.filter(u => u.userId !== userId) *)
      let users' := filter (λ u, SocketUser.userId u ≠ userId) (NoteRoom.users room) in
      let st1 := with_noteRooms (insert noteId (NoteRoom.mk (NoteRoom.noteId room) users')) st in
      if decide (length users' = 0) then
        (with_noteRooms (delete noteId) st1, [])
      else
        (st1, [io_to st1 (roomName noteId) (user_left userId (activeUsers users'))])
  end.

(** [export const getActiveUsersInNote]. *)
Definition getActiveUsersInNote (noteId : string) (st : State) : list SocketUser.t :=
  match noteRooms st !! noteId with
  | Some room => NoteRoom.users room
  | None => []
  end.

(** [list.forEach(f)] for a callback that updates the state and emits. *)
Fixpoint forEach {A} (f : A → State → State * list Emission) (l : list A) (st : State)
  : State * list Emission :=
  match l with
  | [] => (st, [])
  | x :: l' =>
      let '(st1, out1) := f x st in
      let '(st2, out2) := forEach f l' st1 in
      (st2, out1 ++ out2)
  end.

(** What [await Note.findById(noteId)] gave the handler: a note, [null],
    or a rejection, which lands in the handler's [catch]. *)
Inductive FindResult :=
| Resolved (note : option INote.t)
| Rejected.

(** [!note || !note.isUserAuthorized(userId, requiredRole)]. *)
Definition denied (note : option INote.t) (userId : string) (requiredRole : Role) : bool :=
  match note with
  | None => true
  | Some n => negb (isUserAuthorized n userId requiredRole)
  end.

(** [Array.from(socket.rooms).filter(room => room !== socket.id)]. *)
Definition currentRooms (socketId : string) (rooms : list string) : list string :=
  filter (λ room, room ≠ socketId) rooms.

(** The callback of lines 48-53 of the [join-note] listener. *)
Definition leaveRoom (socketId userId room : string) (st : State) : State * list Emission :=
  if startsWith room "note:" then
    handleUserLeaveRoom (replace "note:" EmptyString room) userId (socket_leave socketId room st)
  else (st, []).

(** Lines 46-53: leave any existing note rooms. *)
Definition leaveExistingRooms (socketId userId : string) (rooms : list string) (st : State)
  : State * list Emission :=
  forEach (leaveRoom socketId userId) (currentRooms socketId rooms) st.

(** Lines 68-80: overwrite the socket id of the user's entry, or push a
    new entry. *)
Definition upsertEntry (user : AuthPayload.t) (socketId : string) (users : list SocketUser.t)
  : list SocketUser.t :=
  (* const existingUserIndex = room.users.findIndex(u => u.userId === socket.user!.userId) *)
  match list_find (λ u, SocketUser.userId u = AuthPayload.userId user) users with
  | Some (existingUserIndex, _) =>
      (* room.users[existingUserIndex].socketId = socket.id *)
      alter (λ u, SocketUser.mk (SocketUser.userId u) (SocketUser.username u) socketId)
            existingUserIndex users
  | None =>
      users ++ [SocketUser.mk (AuthPayload.userId user) (AuthPayload.username user) socketId]
  end.

(** Lines 59-80: update or create the room info. *)
Definition upsertUser (noteId : string) (user : AuthPayload.t) (socketId : string)
                      (rooms : gmap string NoteRoom.t) : gmap string NoteRoom.t :=
  (* if (!noteRooms.has(noteId)) noteRooms.set(noteId, { noteId, users: [] }) *)
  let rooms1 := match rooms !! noteId with
                | Some _ => rooms
                | None => <[noteId := NoteRoom.mk noteId []]> rooms
                end in
  (* const room = noteRooms.get(noteId)!, present by the lines above *)
  match rooms1 !! noteId with
  | None => rooms1
  | Some room =>
      <[noteId := NoteRoom.mk (NoteRoom.noteId room)
                              (upsertEntry user socketId (NoteRoom.users room))]> rooms1
  end.

(** Lines 55-95: join the socket.io room, upsert, notify. *)
Definition enterRoom (socketId noteId : string) (user : AuthPayload.t) (st : State)
  : State * list Emission :=
  let st2 := socket_join socketId (roomName noteId) st in
  let st3 := with_noteRooms (upsertUser noteId user socketId) st2 in
  let roster := activeUsers (getActiveUsersInNote noteId st3) in
  (st3, [ socket_to st3 socketId (roomName noteId) (user_joined (userOf user) roster);
          socket_emit socketId (joined_note noteId roster) ]).

(** [socket.on('join-note', async (noteId) => ...)]. *)
Definition join_note (socketId noteId : string) (found : FindResult) (st : State)
  : State * list Emission :=
  match sockets st !! socketId with
  | None => (st, [])
  | Some sk =>
      let user := Socket.user sk in
      match found with
      | Rejected => (st, [socket_emit socketId (error "Failed to join note")])
      | Resolved note =>
          if denied note (AuthPayload.userId user) read then
            (st, [socket_emit socketId (error "Access denied to this note")])
          else
            let '(st1, out1) :=
              leaveExistingRooms socketId (AuthPayload.userId user) (Socket.rooms sk) st in
            let '(st3, out2) := enterRoom socketId noteId user st1 in
            (st3, out1 ++ out2)
      end
  end.

(** [socket.on('leave-note', (noteId) => ...)]. *)
Definition leave_note (socketId noteId : string) (st : State) : State * list Emission :=
  match sockets st !! socketId with
  | None => (st, [])
  | Some sk =>
      handleUserLeaveRoom noteId (AuthPayload.userId (Socket.user sk))
                          (socket_leave socketId (roomName noteId) st)
  end.

(** [socket.on('note-update', async (data) => ...)]; [now] is the value
    of [new Date()]. *)
Definition note_update (socketId noteId content : string) (title : option string)
                       (found : FindResult) (now : Z) (st : State)
  : State * list Emission :=
  match sockets st !! socketId with
  | None => (st, [])
  | Some sk =>
      let user := Socket.user sk in
      match found with
      | Rejected => (st, [socket_emit socketId (error "Failed to update note")])
      | Resolved note =>
          if denied note (AuthPayload.userId user) write then
            (st, [socket_emit socketId (error "Write access denied")])
          else
            (st, [socket_to st socketId (roomName noteId)
                            (note_updated noteId content title (userOf user) now)])
      end
  end.

(** [socket.on('cursor-update', (data) => ...)]. *)
Definition cursor_update (socketId noteId : string) (position : Z)
                         (selection : option (Z * Z)) (st : State)
  : State * list Emission :=
  match sockets st !! socketId with
  | None => (st, [])
  | Some sk =>
      (st, [socket_to st socketId (roomName noteId)
                      (cursor_updated (userOf (Socket.user sk)) position selection)])
  end.

(** The authentication middleware [io.use(...)] followed by socket.io
    accepting the connection.  [decoded] is what [jwt.verify] made of
    the handshake token, [None] when the token is missing or refused:
    the connection is then rejected before any table is touched.  A
    socket starts out in the room that carries its own id. *)
Definition connection (socketId : string) (decoded : option AuthPayload.t) (st : State)
  : State * list Emission :=
  match decoded with
  | None => (st, [])
  | Some user =>
      (with_sockets (insert socketId (Socket.mk user [socketId]))
         (with_userSockets (insert (AuthPayload.userId user) socketId) st), [])
  end.

(** The callback of lines 165-169 of the [disconnect] listener. *)
Definition removeFromRoom (userId room : string) (st : State) : State * list Emission :=
  if startsWith room "note:" then
    handleUserLeaveRoom (replace "note:" EmptyString room) userId st
  else (st, []).

Section Lifecycle.

(** socket.io decides what [socket.rooms] still holds when it fires
    ['disconnect'] (some releases empty the set first).  The listener
    reads whatever is left, so that reading is a parameter: it maps the
    rooms the socket was in to the rooms the listener sees. *)
Variable rooms_on_disconnect : list string → list string.

(** [socket.on('disconnect', () => ...)]; afterwards the socket is gone
    from socket.io's tables. *)
Definition disconnect (socketId : string) (st : State) : State * list Emission :=
  match sockets st !! socketId with
  | None => (st, [])
  | Some sk =>
      let userId := AuthPayload.userId (Socket.user sk) in
      let '(st1, out) :=
        forEach (removeFromRoom userId)
                (currentRooms socketId (rooms_on_disconnect (Socket.rooms sk))) st in
      (with_sockets (delete socketId) (with_userSockets (delete userId) st1), out)
  end.

(** The events the server reacts to, each with what its handler reads
    from outside the process. *)
Inductive Event :=
| on_connection (socketId : string) (decoded : option AuthPayload.t)
| on_join_note (socketId noteId : string) (found : FindResult)
| on_leave_note (socketId noteId : string)
| on_note_update (socketId noteId content : string) (title : option string)
                 (found : FindResult) (now : Z)
| on_cursor_update (socketId noteId : string) (position : Z) (selection : option (Z * Z))
| on_disconnect (socketId : string).

Definition step (e : Event) (st : State) : State * list Emission :=
  match e with
  | on_connection s decoded => connection s decoded st
  | on_join_note s n found => join_note s n found st
  | on_leave_note s n => leave_note s n st
  | on_note_update s n c t found now => note_update s n c t found now st
  | on_cursor_update s n p sel => cursor_update s n p sel st
  | on_disconnect s => disconnect s st
  end.

(** Node runs one listener at a time: a history is the listeners run
    one after the other from the freshly loaded module. *)
Definition run (es : list Event) : State * list Emission := forEach step es initial.

End Lifecycle.

(** ** Views used in the statements *)

(** [userId] has an entry in the membership of the room of [noteId]. *)
Definition member (userId noteId : string) (st : State) : Prop :=
  userId ∈ map SocketUser.userId (getActiveUsersInNote noteId st).

#[global] Instance member_dec userId noteId st : Decision (member userId noteId st).
Proof. unfold member. apply _. Defined.

(** The socket is joined to the socket.io room of [noteId]. *)
Definition occupies (socketId noteId : string) (st : State) : Prop :=
  socketId ∈ room_sockets st (roomName noteId).

#[global] Instance occupies_dec socketId noteId st : Decision (occupies socketId noteId st).
Proof. unfold occupies. apply _. Defined.

(** A property of every membership list of the table. *)
Definition every_room (P : list SocketUser.t → Prop) (st : State) : Prop :=
  ∀ noteId room, noteRooms st !! noteId = Some room → P (NoteRoom.users room).

(** I2: no room of the table has an empty membership. *)
Definition no_empty_room (st : State) : Prop :=
  ∀ noteId room, noteRooms st !! noteId = Some room → NoteRoom.users room ≠ [].

(** At most one entry per user in every room. *)
Definition one_entry_per_user (st : State) : Prop :=
  ∀ noteId room, noteRooms st !! noteId = Some room →
    NoDup (map SocketUser.userId (NoteRoom.users room)).

(** Every emission of [out] is a [user-left]. *)
Definition only_user_left (out : list Emission) : Prop :=
  Forall (λ e, ∃ userId roster, payload e = user_left userId roster) out.


(** Apart from the room that carries its own id, every connected socket
    is in no room or in the room of exactly one note. *)
Definition one_note_per_socket (st : State) : Prop :=
  ∀ socketId sk, sockets st !! socketId = Some sk →
    currentRooms socketId (Socket.rooms sk) = []
    ∨ ∃ noteId, currentRooms socketId (Socket.rooms sk) = [roomName noteId].

(** The shape of a departure notice: a [user-left] sent with
    [io.to(room)] to the room of a note, naming a user and carrying a
    roster that is not empty and does not list that user. *)
Definition departure (e : Emission) : Prop :=
  ∃ noteId userId rest,
    target e = ToRoom (roomName noteId)
    ∧ payload e = user_left userId (activeUsers rest)
    ∧ rest ≠ []
    ∧ userId ∉ map SocketUser.userId rest.

(** What [handleUserLeaveRoom] makes of the room table. *)
Definition tableAfterLeave (noteId userId : string) (rooms : gmap string NoteRoom.t)
  : gmap string NoteRoom.t :=
  match rooms !! noteId with
  | None => rooms
  | Some room =>
      let users' := filter (λ u, SocketUser.userId u ≠ userId) (NoteRoom.users room) in
      if decide (length users' = 0) then delete noteId rooms
      else <[noteId := NoteRoom.mk (NoteRoom.noteId room) users']> rooms
  end.

(** ** Objects as a client sees them *)

(** The own properties of a [SocketUser], in the order of the literal
    the [join-note] listener pushes (lines 75-79). *)
Definition entries_SocketUser (u : SocketUser.t) : list (string * string) :=
  [ ("userId", SocketUser.userId u);
    ("username", SocketUser.username u);
    ("socketId", SocketUser.socketId u) ].

(** The own properties of a [{ userId, username }] literal. *)
Definition entries_ActiveUser (a : ActiveUser.t) : list (string * string) :=
  [ ("userId", ActiveUser.userId a); ("username", ActiveUser.username a) ].

(** [getPresence] in the specification's words: the list of
    [{userId, username}] of the room's current members, empty when
    there is no such room. *)
Definition getPresence_spec (noteId : string) (st : State) : list ActiveUser.t :=
  match noteRooms st !! noteId with
  | Some room => map toActiveUser (NoteRoom.users room)
  | None => []
  end.

(** ** src/models/Note.ts: the version history *)

(** [INoteVersion]; [modifiedAt] is the reading of [new Date()]. *)
Module INoteVersion.
Record t := mk { content : string; modifiedBy : string; modifiedAt : Z }.
End INoteVersion.

(** The note document with the fields the controllers and [addVersion]
    touch.  [view] is the part of it [isUserAuthorized] reads. *)
Module NoteDoc.
Record t := mk {
  title : string;
  content : string;
  owner : string;
  collaborators : list ICollaborator.t;
  versions : list INoteVersion.t
}.
Definition view (d : t) : INote.t := INote.mk (owner d) (collaborators d).
End NoteDoc.

(** [versions.slice(-n)]: the last [n] elements. *)
Definition slice_last {A} (n : nat) (l : list A) : list A := drop (length l - n) l.

(** [noteSchema.methods.addVersion].  The entry is built before it is
    pushed, and building it runs [new mongoose.Types.ObjectId(modifiedBy)],
    which throws on a string it does not accept: [objectIdAccepts] says
    which strings the constructor takes, and [None] stands for the
    method ending in that exception, with nothing pushed. *)
Definition addVersion (objectIdAccepts : string → bool)
                      (this : NoteDoc.t) (content modifiedBy : string) (now : Z)
  : option NoteDoc.t :=
  if bool_decide (NoteDoc.content this ≠ content) then
    if objectIdAccepts modifiedBy then
      let pushed :=
        NoteDoc.versions this ++ [INoteVersion.mk (NoteDoc.content this) modifiedBy now] in
      Some (NoteDoc.mk (NoteDoc.title this) (NoteDoc.content this) (NoteDoc.owner this)
                       (NoteDoc.collaborators this)
                       (if bool_decide (50 < length pushed) then slice_last 50 pushed
                        else pushed))
    else None
  else Some this.

(** ** src/controllers/noteController.ts *)

(** [throw createError(message, statusCode)]: the handler stops with
    these two arguments (what the error middleware sends for them is
    outside the files at hand). *)
Record HttpError := createError { message : string; statusCode : nat }.

(** What a controller ends with: a thrown error, or the value it goes
    on to save and answer with. *)
Inductive Outcome (A : Type) :=
| Threw (e : HttpError)
| Done (a : A).
Arguments Threw {A} e.
Arguments Done {A} a.




(** Lines 183-198 of [addCollaborator]: set the role of the first entry
    of the user, or push a new entry. *)
Definition upsertCollaborator (user : string) (role : Role) (cs : list ICollaborator.t)
  : list ICollaborator.t :=
  match list_find (λ c, ICollaborator.user c = user) cs with
  | Some (i, _) => alter (λ c, ICollaborator.mk (ICollaborator.user c) role) i cs
  | None => cs ++ [ICollaborator.mk user role]
  end.

(** [addCollaborator]; [collaboratorUser] is the id of what
    [User.findOne({ email })] resolved to, and [role] is [None] when the
    body has none (it then defaults to ['read']). *)
Definition addCollaborator (idValid : bool) (found : option NoteDoc.t) (userId : string)
                           (collaboratorUser : option string) (role : option Role)
  : Outcome NoteDoc.t :=
  let role := default read role in
  if negb idValid then Threw (createError "Invalid note ID" 400)
  else match found with
       | None => Threw (createError "Note not found" 404)
       | Some note =>
           if bool_decide (NoteDoc.owner note ≠ userId)
           then Threw (createError "Only the owner can manage collaborators" 403)
           else match collaboratorUser with
                | None => Threw (createError "User not found" 404)
                | Some user =>
                    Done (NoteDoc.mk (NoteDoc.title note) (NoteDoc.content note)
                                     (NoteDoc.owner note)
                                     (upsertCollaborator user role (NoteDoc.collaborators note))
                                     (NoteDoc.versions note))
                end
       end.

(** [removeCollaborator]. *)
Definition removeCollaborator (idValid collaboratorIdValid : bool) (found : option NoteDoc.t)
                              (userId collaboratorId : string) : Outcome NoteDoc.t :=
  if negb idValid || negb collaboratorIdValid then Threw (createError "Invalid ID format" 400)
  else match found with
       | None => Threw (createError "Note not found" 404)
       | Some note =>
           if bool_decide (NoteDoc.owner note ≠ userId)
           then Threw (createError "Only the owner can manage collaborators" 403)
           else
             Done (NoteDoc.mk (NoteDoc.title note) (NoteDoc.content note) (NoteDoc.owner note)
                              (filter (λ c, ICollaborator.user c ≠ collaboratorId)
                                      (NoteDoc.collaborators note))
                              (NoteDoc.versions note))
       end.

(** ** src/middleware/auth.ts *)

(** [s.split(' ')]: the pieces between the spaces, empty pieces
    included; never an empty array. *)
Fixpoint split_space (s : string) : list string :=
  match s with
  | EmptyString => [EmptyString]
  | String c s' =>
      if bool_decide (c = " "%char) then EmptyString :: split_space s'
      else match split_space s' with
           | piece :: pieces => String c piece :: pieces
           | [] => [String c EmptyString]
           end
  end.

(** [s.includes(' ')]. *)
Fixpoint includesSpace (s : string) : bool :=
  match s with
  | EmptyString => false
  | String c s' => bool_decide (c = " "%char) || includesSpace s'
  end.

(** [authHeader && authHeader.split(' ')[1]], as far as its truthiness
    and its string value go: [None] stands for [undefined]. *)
Definition bearerToken (authHeader : option string) : option string :=
  match authHeader with
  | None => None
  | Some h => if bool_decide (h = EmptyString) then Some h else split_space h !! 1
  end.

(** [!token]. *)
Definition noToken (token : option string) : bool :=
  match token with
  | None => true
  | Some t => bool_decide (t = EmptyString)
  end.

(** How an Express middleware ends: it answers itself, or it calls
    [next()] with [req.user] as shown. *)
Inductive Middleware :=
| Responded (status : nat) (message : string)
| Next (user : option AuthPayload.t).

Section Auth.

(** [jwt.verify(token, config.jwt.secret)]: the payload, or [None]
    where it throws. *)
Variable verify : string → option AuthPayload.t.

(** [authenticateToken]. *)
Definition authenticateToken (authHeader : option string) : Middleware :=
  let token := bearerToken authHeader in
  if noToken token then Responded 401 "Access token required"
  else match token ≫= verify with
       | Some decoded => Next (Some decoded)
       | None => Responded 403 "Invalid or expired token"
       end.

(** [optionalAuth]. *)
Definition optionalAuth (authHeader : option string) : Middleware :=
  let token := bearerToken authHeader in
  if noToken token then Next None
  else Next (token ≫= verify).

End Auth.

(** ** The lookup behind the socket listeners *)

(** [Note.findById(noteId)] as the listeners call it, with no check of
    the id before: Mongoose first casts the id to an ObjectId and
    rejects the query when it cannot; otherwise the query resolves to
    the note stored under the id or to [null].  [castable] says which
    strings the cast takes and [collection] is the notes collection. *)
Definition findById (castable : string → bool) (collection : string → option INote.t)
                    (noteId : string) : FindResult :=
  if castable noteId then Resolved (collection noteId) else Rejected.

(** *** Instances for the worked examples *)

Definition isHexDigit (c : ascii) : bool :=
  let n := nat_of_ascii c in
  (Nat.leb 48 n && Nat.leb n 57) || (Nat.leb 97 n && Nat.leb n 102)
  || (Nat.leb 65 n && Nat.leb n 70).

(** The ids Mongo hands out, which the ObjectId constructor and the cast
    accept: 24 hexadecimal digits. *)
Definition isHex24 (s : string) : bool :=
  Nat.eqb (String.length s) 24 && forallb isHexDigit (list_ascii_of_string s).




(** ** A small cast for the worked histories

    Two users, two notes (shaped like the seed data: the first note is
    owned by alice with bob as a writing collaborator, the second is
    bob's alone) and a third user who is on neither note. *)

Definition alice : AuthPayload.t := AuthPayload.mk "u1" "alice" "alice@example.com".
Definition bob : AuthPayload.t := AuthPayload.mk "u2" "bob" "bob@example.com".
Definition carol : AuthPayload.t := AuthPayload.mk "u3" "carol" "carol@example.com".

Definition note1 : INote.t := INote.mk "u1" [ICollaborator.mk "u2" write].
Definition note2 : INote.t := INote.mk "u2" [ICollaborator.mk "u1" read].

(** alice and bob connect and both open the first note. *)
Definition both_in_n1 : list Event :=
  [ on_connection "s1" (Some alice);
    on_connection "s2" (Some bob);
    on_join_note "s1" "n1" (Resolved (Some note1));
    on_join_note "s2" "n1" (Resolved (Some note1)) ].

(** alice and bob connect; only bob opens the first note. *)
Definition bob_in_n1 : list Event :=
  [ on_connection "s1" (Some alice);
    on_connection "s2" (Some bob);
    on_join_note "s2" "n1" (Resolved (Some note1)) ].

(** The listener sees the rooms as they were: the reading of
    [socket.rooms] under which ['disconnect'] cleans up. *)
Definition rooms_kept : list string → list string := λ rooms, rooms.

(** The listener finds [socket.rooms] already emptied: the reading of
    it under which ['disconnect'] sees no note room. *)
Definition rooms_emptied : list string → list string := λ _, [].

(** * Lemmas *)

(** ** Room names *)

Lemma append_nil s : EmptyString +:+ s = s.
Proof. reflexivity. Qed.

Lemma append_cons a p s : String a p +:+ s = String a (p +:+ s).
Proof. reflexivity. Qed.

Lemma prefix_app p s : String.prefix p (p +:+ s) = true.
Proof.
  induction p as [|a p IH].
  - by destruct s.
  - rewrite append_cons. simpl. by destruct (ascii_dec a a).
Qed.

Lemma string_drop_app p s : string_drop (String.length p) (p +:+ s) = s.
Proof. induction p as [|a p IH]; [done|]. by rewrite append_cons. Qed.

Lemma prefix_split p s :
  String.prefix p s = true → s = p +:+ string_drop (String.length p) s.
Proof.
  revert s. induction p as [|a p IH]; intros s.
  - done.
  - destruct s as [|b s]; [done|]. simpl.
    destruct (ascii_dec a b) as [->|]; [|done].
    intros Hp. rewrite append_cons. by rewrite <- IH.
Qed.

Lemma replace_prefix pat rep s :
  String.prefix pat s = true → replace pat rep s = rep +:+ string_drop (String.length pat) s.
Proof. intros Hp. destruct s; unfold replace; fold replace; by rewrite Hp. Qed.

Lemma startsWith_roomName noteId : startsWith (roomName noteId) "note:" = true.
Proof. apply prefix_app. Qed.

Lemma replace_roomName noteId : replace "note:" EmptyString (roomName noteId) = noteId.
Proof.
  unfold roomName. rewrite replace_prefix by apply prefix_app.
  by rewrite string_drop_app.
Qed.

Lemma roomName_replace room :
  startsWith room "note:" = true → roomName (replace "note:" EmptyString room) = room.
Proof.
  unfold startsWith, roomName. intros Hp.
  rewrite replace_prefix by done. symmetry. by apply prefix_split.
Qed.

Lemma roomName_inj n m : roomName n = roomName m → n = m.
Proof. unfold roomName. rewrite !append_cons, !append_nil. congruence. Qed.

(** The note a room name stands for is [noteId] exactly when the room
    is the room of [noteId]. *)
Lemma replace_eq_iff room noteId :
  startsWith room "note:" = true →
  replace "note:" EmptyString room = noteId ↔ room = roomName noteId.
Proof.
  intros Hp. split.
  - intros <-. by rewrite roomName_replace.
  - intros ->. apply replace_roomName.
Qed.

(** ** socket.io rooms *)

Lemma elem_of_room_sockets st room s :
  s ∈ room_sockets st room ↔ ∃ sk, sockets st !! s = Some sk ∧ room ∈ Socket.rooms sk.
Proof.
  unfold room_sockets. rewrite elem_of_dom. unfold is_Some.
  setoid_rewrite map_lookup_filter_Some. naive_solver.
Qed.

Lemma room_sockets_ext st st' room :
  sockets st' = sockets st → room_sockets st' room = room_sockets st room.
Proof. unfold room_sockets. by intros ->. Qed.

Lemma room_sockets_leave st s room room' :
  room_sockets (socket_leave s room st) room' =
  if decide (room' = room) then room_sockets st room' ∖ {[ s ]} else room_sockets st room'.
Proof.
  apply set_eq. intros x. case_decide as Hr.
  - subst room'. rewrite elem_of_difference, !elem_of_room_sockets, elem_of_singleton.
    unfold socket_leave; simpl. split.
    + intros (sk & Hsk & Hin). destruct (decide (x = s)) as [->|Hne].
      * rewrite lookup_alter_eq in Hsk.
        destruct (sockets st !! s) as [sk0|]; simplify_eq/=.
        apply list_elem_of_filter in Hin as [Hr' Hin']. naive_solver.
      * rewrite lookup_alter_ne in Hsk by done. eauto.
    + intros [(sk & Hsk & Hin) Hne]. exists sk. by rewrite lookup_alter_ne.
  - rewrite !elem_of_room_sockets. unfold socket_leave; simpl. split.
    + intros (sk & Hsk & Hin). destruct (decide (x = s)) as [->|Hne].
      * rewrite lookup_alter_eq in Hsk.
        destruct (sockets st !! s) as [sk0|]; simplify_eq/=.
        apply list_elem_of_filter in Hin as [Hr' Hin']. naive_solver.
      * rewrite lookup_alter_ne in Hsk by done. eauto.
    + intros (sk & Hsk & Hin). destruct (decide (x = s)) as [->|Hne].
      * eexists. rewrite lookup_alter_eq, Hsk. split; [done|]. simpl.
        apply list_elem_of_filter. done.
      * exists sk. by rewrite lookup_alter_ne.
Qed.

Lemma room_sockets_join st s sk room :
  sockets st !! s = Some sk →
  room_sockets (socket_join s room st) room = room_sockets st room ∪ {[ s ]}.
Proof.
  intros Hs. apply set_eq. intros x.
  rewrite elem_of_union, !elem_of_room_sockets, elem_of_singleton.
  unfold socket_join; simpl. split.
  - intros (sk' & Hsk & Hin). destruct (decide (x = s)) as [->|Hne]; [by right|].
    rewrite lookup_alter_ne in Hsk by done. eauto.
  - intros [(sk' & Hsk & Hin)| ->].
    + destruct (decide (x = s)) as [->|Hne].
      * eexists. rewrite lookup_alter_eq, Hsk. split; [done|]. simpl.
        case_decide; [done|]. apply elem_of_app. by left.
      * exists sk'. by rewrite lookup_alter_ne.
    + eexists. rewrite lookup_alter_eq, Hs. split; [done|]. simpl.
      case_decide; [done|]. apply elem_of_app. right. by apply list_elem_of_singleton.
Qed.

(** ** Membership lists *)

Lemma filter_idemp {A} (P : A → Prop) `{∀ x, Decision (P x)} (l : list A) :
  filter P (filter P l) = filter P l.
Proof.
  induction l as [|x l IH]; [done|].
  rewrite filter_cons. case_decide as HP; [|done].
  rewrite filter_cons. case_decide; [|done]. by rewrite IH.
Qed.

Lemma filter_all {A} (P : A → Prop) `{∀ x, Decision (P x)} (l : list A) :
  Forall P l → filter P l = l.
Proof.
  induction 1 as [|x l HP _ IH]; [done|].
  rewrite filter_cons. case_decide; [|done]. by rewrite IH.
Qed.

Lemma userIds_filter uid (l : list SocketUser.t) :
  uid ∉ map SocketUser.userId (filter (λ u, SocketUser.userId u ≠ uid) l).
Proof.
  rewrite list_elem_of_In, in_map_iff. intros (u & Hu & Hin).
  apply list_elem_of_In, list_elem_of_filter in Hin as [Hne _]. by apply Hne.
Qed.

Lemma filter_absent uid (l : list SocketUser.t) :
  uid ∉ map SocketUser.userId l → filter (λ u, SocketUser.userId u ≠ uid) l = l.
Proof.
  intros Hn. apply filter_all, Forall_forall. intros u Hu <-.
  apply Hn. apply list_elem_of_In, in_map, list_elem_of_In, Hu.
Qed.

Lemma NoDup_userIds_filter (P : SocketUser.t → Prop) `{∀ x, Decision (P x)} l :
  NoDup (map SocketUser.userId l) → NoDup (map SocketUser.userId (filter P l)).
Proof.
  induction l as [|u l IH]; [done|]. simpl. rewrite NoDup_cons. intros [Hn Hd].
  rewrite filter_cons. case_decide; [|by apply IH].
  simpl. apply NoDup_cons. split; [|by apply IH].
  intros Hin. apply Hn.
  apply list_elem_of_In, in_map_iff in Hin as (v & Hv & Hin).
  apply list_elem_of_In, list_elem_of_filter in Hin as [_ Hin].
  rewrite <- Hv. apply list_elem_of_In, in_map, list_elem_of_In, Hin.
Qed.

(** Removing the one entry of a user shortens the list by one. *)
Lemma length_filter_member uid (l : list SocketUser.t) :
  NoDup (map SocketUser.userId l) → uid ∈ map SocketUser.userId l →
  S (length (filter (λ u, SocketUser.userId u ≠ uid) l)) = length l.
Proof.
  induction l as [|u l IH]; simpl.
  - intros _ Hin. by apply elem_of_nil in Hin.
  - rewrite NoDup_cons. intros [Hn Hd] Hin.
    destruct (decide (SocketUser.userId u = uid)) as [Hu|Hu].
    + rewrite filter_cons_False by (intros Hne; by apply Hne).
      subst uid. by rewrite filter_absent.
    + rewrite filter_cons_True by done. simpl. f_equal. apply IH; [done|].
      apply elem_of_cons in Hin as [->|Hin]; done.
Qed.

(** ** [handleUserLeaveRoom] *)

Lemma handleUserLeaveRoom_sockets n uid st :
  sockets (handleUserLeaveRoom n uid st).1 = sockets st.
Proof.
  unfold handleUserLeaveRoom. destruct (noteRooms st !! n); [|done].
  by case_decide.
Qed.

Lemma handleUserLeaveRoom_userSockets n uid st :
  userSockets (handleUserLeaveRoom n uid st).1 = userSockets st.
Proof.
  unfold handleUserLeaveRoom. destruct (noteRooms st !! n); [|done].
  by case_decide.
Qed.

(** The roster of the room named loses the user's entries; every other
    roster is as before. *)
Lemma handleUserLeaveRoom_users n uid st m :
  getActiveUsersInNote m (handleUserLeaveRoom n uid st).1 =
  if decide (m = n)
  then filter (λ u, SocketUser.userId u ≠ uid) (getActiveUsersInNote m st)
  else getActiveUsersInNote m st.
Proof.
  unfold handleUserLeaveRoom, getActiveUsersInNote.
  destruct (noteRooms st !! n) as [room|] eqn:Hn.
  - destruct (decide (length _ = 0)) as [Hlen|Hlen]; simpl.
    + case_decide as Hm.
      * subst m. rewrite lookup_delete_eq, Hn.
        symmetry. by apply length_zero_iff_nil.
      * by rewrite lookup_delete_ne, lookup_insert_ne.
    + case_decide as Hm.
      * subst m. by rewrite lookup_insert_eq, Hn.
      * by rewrite lookup_insert_ne.
  - simpl. case_decide as Hm; [|done]. subst m. by rewrite Hn.
Qed.

(** It emits at most once: a [user-left] to the socket.io room, with
    the roster after the removal, and only when that roster is not
    empty. *)
Lemma handleUserLeaveRoom_out n uid st :
  (handleUserLeaveRoom n uid st).2 =
  let rest := filter (λ u, SocketUser.userId u ≠ uid) (getActiveUsersInNote n st) in
  match rest with
  | [] => []
  | _ => [io_to st (roomName n) (user_left uid (activeUsers rest))]
  end.
Proof.
  unfold handleUserLeaveRoom, getActiveUsersInNote.
  destruct (noteRooms st !! n) as [room|] eqn:Hn; [|done]. simpl.
  destruct (filter _ (NoteRoom.users room)) as [|u rest] eqn:Hf; [done|].
  case_decide; done.
Qed.

Lemma handleUserLeaveRoom_every_room (P : list SocketUser.t → Prop) n uid st :
  (∀ l, P l → filter (λ u, SocketUser.userId u ≠ uid) l ≠ [] →
        P (filter (λ u, SocketUser.userId u ≠ uid) l)) →
  every_room P st → every_room P (handleUserLeaveRoom n uid st).1.
Proof.
  intros HP Hst m room. unfold handleUserLeaveRoom.
  destruct (noteRooms st !! n) as [r|] eqn:Hn; [|apply Hst].
  destruct (decide (length _ = 0)) as [Hlen|Hlen]; simpl.
  - destruct (decide (m = n)) as [->|Hm].
    + by rewrite lookup_delete_eq.
    + rewrite lookup_delete_ne, lookup_insert_ne by done. apply Hst.
  - destruct (decide (m = n)) as [->|Hm].
    + rewrite lookup_insert_eq. intros [= <-]. simpl. apply HP; [by eapply Hst|].
      intros Hnil. by rewrite Hnil in Hlen.
    + rewrite lookup_insert_ne by done. apply Hst.
Qed.

(** ** [upsertEntry] and [upsertUser] *)

Lemma upsertEntry_absent user sid l :
  AuthPayload.userId user ∉ map SocketUser.userId l →
  upsertEntry user sid l =
  l ++ [SocketUser.mk (AuthPayload.userId user) (AuthPayload.username user) sid].
Proof.
  intros Hn. unfold upsertEntry.
  destruct (list_find _ l) as [[i u]|] eqn:Hf; [|done].
  apply list_find_Some in Hf as (Hi & Hu & _). exfalso. apply Hn.
  rewrite <- Hu. apply list_elem_of_In, in_map, list_elem_of_In.
  by eapply list_elem_of_lookup_2.
Qed.

(** With one entry per user, the entry found is the user's entry
    wherever it stands, and only its socket id changes. *)
Lemma upsertEntry_present user sid l i u :
  NoDup (map SocketUser.userId l) →
  l !! i = Some u → SocketUser.userId u = AuthPayload.userId user →
  upsertEntry user sid l =
  <[i := SocketUser.mk (SocketUser.userId u) (SocketUser.username u) sid]> l.
Proof.
  intros Hnd Hi Hu. unfold upsertEntry.
  destruct (list_find _ l) as [[j v]|] eqn:Hf.
  - apply list_find_Some in Hf as (Hj & Hv & _).
    assert (j = i) as ->.
    { eapply NoDup_lookup; [exact Hnd| |].
      - rewrite list_lookup_fmap, Hj. done.
      - rewrite list_lookup_fmap, Hi. simpl. congruence. }
    simplify_eq. apply list_eq. intros k.
    destruct (decide (k = i)) as [->|Hk].
    + rewrite list_lookup_alter_eq, list_lookup_insert_eq by (by eapply lookup_lt_Some).
      by rewrite Hi.
    + by rewrite list_lookup_alter_ne, list_lookup_insert_ne.
  - apply list_find_None in Hf. rewrite Forall_forall in Hf.
    exfalso. eapply Hf; [|exact Hu]. by eapply list_elem_of_lookup_2.
Qed.

Lemma userIds_alter_socketId sid i (l : list SocketUser.t) :
  map SocketUser.userId
      (alter (λ u, SocketUser.mk (SocketUser.userId u) (SocketUser.username u) sid) i l)
  = map SocketUser.userId l.
Proof.
  revert i. induction l as [|u l IH]; intros [|i]; simpl; try done.
  f_equal. apply IH.
Qed.

(** After the upsert the user has an entry, and it carries the socket
    id of this socket. *)
Lemma upsertEntry_entry user sid l :
  ∃ u, u ∈ upsertEntry user sid l ∧
       SocketUser.userId u = AuthPayload.userId user ∧ SocketUser.socketId u = sid.
Proof.
  unfold upsertEntry. destruct (list_find _ l) as [[i u]|] eqn:Hf.
  - apply list_find_Some in Hf as (Hi & Hu & _).
    exists (SocketUser.mk (SocketUser.userId u) (SocketUser.username u) sid).
    split; [|done]. eapply list_elem_of_lookup_2.
    rewrite list_lookup_alter_eq, Hi. done.
  - exists (SocketUser.mk (AuthPayload.userId user) (AuthPayload.username user) sid).
    split; [|done]. apply elem_of_app. right. by apply list_elem_of_singleton.
Qed.

Lemma upsertEntry_nonempty user sid l : upsertEntry user sid l ≠ [].
Proof.
  destruct (upsertEntry_entry user sid l) as (u & Hin & _).
  intros Hnil. rewrite Hnil in Hin. by apply elem_of_nil in Hin.
Qed.

Lemma upsertEntry_NoDup user sid l :
  NoDup (map SocketUser.userId l) → NoDup (map SocketUser.userId (upsertEntry user sid l)).
Proof.
  intros Hnd. unfold upsertEntry. destruct (list_find _ l) as [[i u]|] eqn:Hf.
  - by rewrite userIds_alter_socketId.
  - apply list_find_None in Hf. rewrite Forall_forall in Hf.
    rewrite map_app. simpl. apply NoDup_app. split; [done|]. split.
    + intros x Hx Hx'. apply list_elem_of_singleton in Hx'. subst x.
      apply list_elem_of_In, in_map_iff in Hx as (v & Hv & Hin).
      eapply Hf; [apply list_elem_of_In, Hin|done].
    + apply NoDup_singleton.
Qed.

Lemma upsertUser_users n user sid st m :
  getActiveUsersInNote m (with_noteRooms (upsertUser n user sid) st) =
  if decide (m = n) then upsertEntry user sid (getActiveUsersInNote n st)
  else getActiveUsersInNote m st.
Proof.
  unfold getActiveUsersInNote, with_noteRooms, upsertUser. simpl.
  destruct (noteRooms st !! n) as [room|] eqn:Hn.
  - rewrite Hn. case_decide as Hm.
    + subst m. by rewrite lookup_insert_eq.
    + by rewrite lookup_insert_ne.
  - rewrite lookup_insert_eq. case_decide as Hm.
    + subst m. by rewrite lookup_insert_eq.
    + by rewrite !lookup_insert_ne.
Qed.

Lemma upsertUser_every_room (P : list SocketUser.t → Prop) n user sid st :
  (∀ l, P l ∨ l = [] → P (upsertEntry user sid l)) →
  every_room P st → every_room P (with_noteRooms (upsertUser n user sid) st).
Proof.
  intros HP Hst m room. unfold with_noteRooms, upsertUser. simpl.
  destruct (noteRooms st !! n) as [r|] eqn:Hn.
  - rewrite Hn. destruct (decide (m = n)) as [->|Hm].
    + rewrite lookup_insert_eq. intros [= <-]. simpl. apply HP. left. by eapply Hst.
    + rewrite lookup_insert_ne by done. apply Hst.
  - rewrite lookup_insert_eq. destruct (decide (m = n)) as [->|Hm].
    + rewrite lookup_insert_eq. intros [= <-]. simpl. apply HP. by right.
    + rewrite !lookup_insert_ne by done. apply Hst.
Qed.

(** ** [forEach] *)

Lemma forEach_cons_fst {A} (f : A → State → State * list Emission) x l st :
  (forEach f (x :: l) st).1 = (forEach f l (f x st).1).1.
Proof. simpl. destruct (f x st) as [st1 out1]. simpl. by destruct (forEach f l st1). Qed.

Lemma forEach_cons_snd {A} (f : A → State → State * list Emission) x l st :
  (forEach f (x :: l) st).2 = (f x st).2 ++ (forEach f l (f x st).1).2.
Proof. simpl. destruct (f x st) as [st1 out1]. simpl. by destruct (forEach f l st1). Qed.

Lemma forEach_preserves {A} (P : State → Prop) (f : A → State → State * list Emission) l :
  (∀ x s, P s → P (f x s).1) → ∀ st, P st → P (forEach f l st).1.
Proof.
  intros Hf. induction l as [|x l IH]; intros st Hst; [done|].
  rewrite forEach_cons_fst. by apply IH, Hf.
Qed.

Lemma forEach_out_Forall {A} (Q : Emission → Prop) (f : A → State → State * list Emission) l :
  (∀ x s, Forall Q (f x s).2) → ∀ st, Forall Q (forEach f l st).2.
Proof.
  intros Hf. induction l as [|x l IH]; intros st; [by apply Forall_nil|].
  rewrite forEach_cons_snd. apply Forall_app. split; [apply Hf|apply IH].
Qed.

(** A view of the state that only the callback for [key] changes, and
    changes idempotently, is changed by the loop exactly when [key] is
    among the elements visited. *)
Lemma forEach_view {A T} `{EqDecision A} (V : State → T) (g : T → T)
      (f : A → State → State * list Emission) (key : A) :
  (∀ t, g (g t) = g t) →
  (∀ x st, V (f x st).1 = if decide (x = key) then g (V st) else V st) →
  ∀ l st, V (forEach f l st).1 = if decide (key ∈ l) then g (V st) else V st.
Proof.
  intros Hg Hf. induction l as [|x l IH]; intros st.
  - destruct (decide (key ∈ [])) as [Hin|]; [by apply elem_of_nil in Hin|done].
  - rewrite forEach_cons_fst, IH, Hf.
    assert (key ∈ x :: l ↔ x = key ∨ key ∈ l) as Hc
      by (rewrite elem_of_cons; split; intros [?|?]; auto).
    destruct (decide (x = key)) as [Hx|Hx]; destruct (decide (key ∈ l)) as [Hin|Hin];
      destruct (decide (key ∈ x :: l)) as [Hin'|Hin'];
      try done; exfalso; tauto.
Qed.

(** ** Leaving the existing rooms (lines 46-53) *)

Lemma leaveRoom_users sid uid m room st :
  getActiveUsersInNote m (leaveRoom sid uid room st).1 =
  if decide (room = roomName m)
  then filter (λ u, SocketUser.userId u ≠ uid) (getActiveUsersInNote m st)
  else getActiveUsersInNote m st.
Proof.
  unfold leaveRoom. destruct (startsWith room "note:") eqn:Hp.
  - rewrite handleUserLeaveRoom_users.
    pose proof (replace_eq_iff room m Hp) as Hiff.
    destruct (decide (m = replace "note:" EmptyString room)) as [Hm|Hm];
      destruct (decide (room = roomName m)) as [Hr|Hr]; try done.
    + exfalso. apply Hr, Hiff. done.
    + exfalso. apply Hm. symmetry. by apply Hiff.
  - simpl. case_decide as Hr; [|done].
    subst room. by rewrite startsWith_roomName in Hp.
Qed.

Lemma leaveRoom_room_sockets sid uid m room st :
  room_sockets (leaveRoom sid uid room st).1 (roomName m) =
  if decide (room = roomName m)
  then room_sockets st (roomName m) ∖ {[ sid ]}
  else room_sockets st (roomName m).
Proof.
  unfold leaveRoom. destruct (startsWith room "note:") eqn:Hp.
  - rewrite (room_sockets_ext (socket_leave sid room st))
      by apply handleUserLeaveRoom_sockets.
    rewrite room_sockets_leave.
    destruct (decide (roomName m = room)) as [Hm|Hm];
      destruct (decide (room = roomName m)) as [Hr|Hr]; done.
  - simpl. case_decide as Hr; [|done].
    subst room. by rewrite startsWith_roomName in Hp.
Qed.

Lemma leaveRoom_userSockets sid uid room st :
  userSockets (leaveRoom sid uid room st).1 = userSockets st.
Proof.
  unfold leaveRoom. destruct (startsWith room "note:"); [|done].
  by rewrite handleUserLeaveRoom_userSockets.
Qed.

(** Leaving rooms never disconnects a socket nor changes its user. *)
Lemma leaveRoom_user sid uid room st s :
  Socket.user <$> sockets (leaveRoom sid uid room st).1 !! s = Socket.user <$> sockets st !! s.
Proof.
  unfold leaveRoom. destruct (startsWith room "note:"); [|done].
  rewrite handleUserLeaveRoom_sockets. unfold socket_leave; simpl.
  destruct (decide (s = sid)) as [->|Hs].
  - rewrite lookup_alter_eq. by destruct (sockets st !! sid).
  - by rewrite lookup_alter_ne.
Qed.

Lemma leaveRoom_out sid uid room st : only_user_left (leaveRoom sid uid room st).2.
Proof.
  unfold leaveRoom, only_user_left. destruct (startsWith room "note:"); [|by apply Forall_nil].
  rewrite handleUserLeaveRoom_out. simpl.
  destruct (filter _ _); [by apply Forall_nil|].
  apply Forall_cons. split; [|by apply Forall_nil]. simpl. eauto.
Qed.

Lemma leaveRoom_every_room (P : list SocketUser.t → Prop) sid uid room st :
  (∀ l, P l → filter (λ u, SocketUser.userId u ≠ uid) l ≠ [] →
        P (filter (λ u, SocketUser.userId u ≠ uid) l)) →
  every_room P st → every_room P (leaveRoom sid uid room st).1.
Proof.
  intros HP Hst. unfold leaveRoom. destruct (startsWith room "note:"); [|done].
  by apply handleUserLeaveRoom_every_room.
Qed.

Lemma leaveExistingRooms_users sid uid rooms m st :
  getActiveUsersInNote m (leaveExistingRooms sid uid rooms st).1 =
  if decide (roomName m ∈ currentRooms sid rooms)
  then filter (λ u, SocketUser.userId u ≠ uid) (getActiveUsersInNote m st)
  else getActiveUsersInNote m st.
Proof.
  unfold leaveExistingRooms.
  apply (forEach_view (getActiveUsersInNote m)
           (filter (λ u, SocketUser.userId u ≠ uid)) (leaveRoom sid uid) (roomName m)).
  - intros l. apply filter_idemp.
  - intros room s. apply leaveRoom_users.
Qed.

Lemma leaveExistingRooms_room_sockets sid uid rooms m st :
  room_sockets (leaveExistingRooms sid uid rooms st).1 (roomName m) =
  if decide (roomName m ∈ currentRooms sid rooms)
  then room_sockets st (roomName m) ∖ {[ sid ]}
  else room_sockets st (roomName m).
Proof.
  unfold leaveExistingRooms.
  apply (forEach_view (λ s, room_sockets s (roomName m))
           (λ X, X ∖ {[ sid ]}) (leaveRoom sid uid) (roomName m)).
  - intros X. apply set_eq. intros x. rewrite !elem_of_difference. tauto.
  - intros room s. apply leaveRoom_room_sockets.
Qed.

Lemma leaveExistingRooms_userSockets sid uid rooms st :
  userSockets (leaveExistingRooms sid uid rooms st).1 = userSockets st.
Proof.
  unfold leaveExistingRooms.
  apply (forEach_preserves (λ s, userSockets s = userSockets st)); [|done].
  intros room s Hs. by rewrite leaveRoom_userSockets.
Qed.

Lemma leaveExistingRooms_user sid uid rooms st s :
  Socket.user <$> sockets (leaveExistingRooms sid uid rooms st).1 !! s
  = Socket.user <$> sockets st !! s.
Proof.
  unfold leaveExistingRooms.
  apply (forEach_preserves
           (λ s', Socket.user <$> sockets s' !! s = Socket.user <$> sockets st !! s)); [|done].
  intros room s' Hs. by rewrite leaveRoom_user.
Qed.

Lemma leaveExistingRooms_out sid uid rooms st :
  only_user_left (leaveExistingRooms sid uid rooms st).2.
Proof. apply forEach_out_Forall. intros room s. apply leaveRoom_out. Qed.

Lemma leaveExistingRooms_every_room (P : list SocketUser.t → Prop) sid uid rooms st :
  (∀ l, P l → filter (λ u, SocketUser.userId u ≠ uid) l ≠ [] →
        P (filter (λ u, SocketUser.userId u ≠ uid) l)) →
  every_room P st → every_room P (leaveExistingRooms sid uid rooms st).1.
Proof.
  intros HP. apply forEach_preserves. intros room s. by apply leaveRoom_every_room.
Qed.

(** The departure from [m] is announced, to the sockets that stay in
    the socket.io room and with the roster that remains, whenever
    somebody remains. *)
Lemma leaveExistingRooms_announces sid uid m rs :
  ∀ st, roomName m ∈ rs →
    filter (λ u, SocketUser.userId u ≠ uid) (getActiveUsersInNote m st) ≠ [] →
    mkEmission (ToRoom (roomName m)) (room_sockets st (roomName m) ∖ {[ sid ]})
               (user_left uid (activeUsers
                  (filter (λ u, SocketUser.userId u ≠ uid) (getActiveUsersInNote m st))))
    ∈ (forEach (leaveRoom sid uid) rs st).2.
Proof.
  induction rs as [|room rs IH]; intros st Hin Hrest.
  - by apply elem_of_nil in Hin.
  - rewrite forEach_cons_snd. apply elem_of_app.
    destruct (decide (room = roomName m)) as [->|Hroom].
    + left. unfold leaveRoom. rewrite startsWith_roomName, replace_roomName.
      rewrite handleUserLeaveRoom_out. change (getActiveUsersInNote m (socket_leave sid (roomName m) st))
        with (getActiveUsersInNote m st). simpl.
      destruct (filter _ (getActiveUsersInNote m st)) as [|u rest] eqn:Hf; [done|].
      apply list_elem_of_singleton. unfold io_to.
      rewrite room_sockets_leave, decide_True by done. done.
    + right. apply elem_of_cons in Hin as [Heq|Hin]; [done|].
      specialize (IH (leaveRoom sid uid room st).1 Hin).
      rewrite leaveRoom_users, leaveRoom_room_sockets, !decide_False in IH by done.
      by apply IH.
Qed.

(** ** Entering a room (lines 55-95) and the whole [join-note] listener *)

Lemma enterRoom_users sid n user st m :
  getActiveUsersInNote m (enterRoom sid n user st).1 =
  if decide (m = n) then upsertEntry user sid (getActiveUsersInNote n st)
  else getActiveUsersInNote m st.
Proof. unfold enterRoom. simpl. apply (upsertUser_users n user sid (socket_join _ _ st)). Qed.

Lemma enterRoom_room_sockets sid n user st sk :
  sockets st !! sid = Some sk →
  room_sockets (enterRoom sid n user st).1 (roomName n) = room_sockets st (roomName n) ∪ {[ sid ]}.
Proof.
  intros Hs. unfold enterRoom. simpl.
  rewrite (room_sockets_ext (socket_join sid (roomName n) st)) by done.
  by eapply room_sockets_join.
Qed.

Lemma enterRoom_every_room (P : list SocketUser.t → Prop) sid n user st :
  (∀ l, P l ∨ l = [] → P (upsertEntry user sid l)) →
  every_room P st → every_room P (enterRoom sid n user st).1.
Proof.
  intros HP Hst. unfold enterRoom. simpl.
  by apply (upsertUser_every_room P n user sid (socket_join _ _ st)).
Qed.

(** The listener on its successful path: the two phases in sequence. *)
Lemma join_note_granted sid n note st sk :
  sockets st !! sid = Some sk →
  denied note (AuthPayload.userId (Socket.user sk)) read = false →
  join_note sid n (Resolved note) st =
  let left := leaveExistingRooms sid (AuthPayload.userId (Socket.user sk)) (Socket.rooms sk) st in
  let entered := enterRoom sid n (Socket.user sk) left.1 in
  (entered.1, left.2 ++ entered.2).
Proof.
  intros Hs Hd. unfold join_note. rewrite Hs, Hd. simpl.
  by destruct (leaveExistingRooms _ _ _ st) as [st1 out1].
Qed.

Lemma join_note_granted_state sid n note st sk :
  sockets st !! sid = Some sk →
  denied note (AuthPayload.userId (Socket.user sk)) read = false →
  (join_note sid n (Resolved note) st).1 =
  (enterRoom sid n (Socket.user sk)
     (leaveExistingRooms sid (AuthPayload.userId (Socket.user sk)) (Socket.rooms sk) st).1).1.
Proof. intros Hs Hd. by rewrite (join_note_granted sid n note st sk Hs Hd). Qed.

Lemma join_note_granted_out sid n note st sk :
  sockets st !! sid = Some sk →
  denied note (AuthPayload.userId (Socket.user sk)) read = false →
  (join_note sid n (Resolved note) st).2 =
  (leaveExistingRooms sid (AuthPayload.userId (Socket.user sk)) (Socket.rooms sk) st).2 ++
  (enterRoom sid n (Socket.user sk)
     (leaveExistingRooms sid (AuthPayload.userId (Socket.user sk)) (Socket.rooms sk) st).1).2.
Proof. intros Hs Hd. by rewrite (join_note_granted sid n note st sk Hs Hd). Qed.

Lemma getActiveUsersInNote_lookup n st room :
  noteRooms st !! n = Some room → getActiveUsersInNote n st = NoteRoom.users room.
Proof. unfold getActiveUsersInNote. by intros ->. Qed.

(** ** Invariants of the table along a history *)

Lemma handlers_every_room (P : list SocketUser.t → Prop) rooms_on_disconnect e st :
  (∀ uid l, P l → filter (λ u, SocketUser.userId u ≠ uid) l ≠ [] →
            P (filter (λ u, SocketUser.userId u ≠ uid) l)) →
  (∀ user sid l, P l ∨ l = [] → P (upsertEntry user sid l)) →
  every_room P st → every_room P (step rooms_on_disconnect e st).1.
Proof.
  intros Hfilter Hupsert Hst. destruct e as [s d|s n found|s n|s n c t found now|s n p sel|s]; simpl.
  - unfold connection. by destruct d.
  - unfold join_note. destruct (sockets st !! s) as [sk|] eqn:Hs; [|done].
    destruct found as [note|]; [|done].
    destruct (denied note _ read) eqn:Hd; [done|].
    pose proof (join_note_granted_state s n note st sk Hs Hd) as Hj.
    unfold join_note in Hj. rewrite Hs, Hd in Hj. rewrite Hj.
    apply enterRoom_every_room; [apply Hupsert|].
    apply leaveExistingRooms_every_room; [apply Hfilter|done].
  - unfold leave_note. destruct (sockets st !! s) as [sk|]; [|done].
    apply handleUserLeaveRoom_every_room; [apply Hfilter|done].
  - unfold note_update. destruct (sockets st !! s) as [sk|]; [|done].
    destruct found as [note|]; [|done]. by destruct (denied note _ write).
  - unfold cursor_update. by destruct (sockets st !! s).
  - unfold disconnect. destruct (sockets st !! s) as [sk|]; [|done].
    destruct (forEach _ _ st) as [st1 out] eqn:Hloop. simpl.
    change (every_room P st1). replace st1 with (st1, out).1 by done. rewrite <- Hloop.
    apply forEach_preserves; [|done].
    intros room s' Hs'. unfold removeFromRoom. destruct (startsWith room "note:"); [|done].
    apply handleUserLeaveRoom_every_room; [apply Hfilter|done].
Qed.

Lemma run_every_room (P : list SocketUser.t → Prop) rooms_on_disconnect es :
  (∀ uid l, P l → filter (λ u, SocketUser.userId u ≠ uid) l ≠ [] →
            P (filter (λ u, SocketUser.userId u ≠ uid) l)) →
  (∀ user sid l, P l ∨ l = [] → P (upsertEntry user sid l)) →
  every_room P (run rooms_on_disconnect es).1.
Proof.
  intros Hfilter Hupsert. unfold run. apply forEach_preserves.
  - intros e st. by apply handlers_every_room.
  - intros n room Hn. unfold initial in Hn. simpl in Hn. by rewrite lookup_empty in Hn.
Qed.

Lemma run_no_empty_room rooms_on_disconnect es :
  no_empty_room (run rooms_on_disconnect es).1.
Proof.
  apply (run_every_room (λ l, l ≠ [])).
  - intros uid l _ Hne. exact Hne.
  - intros user sid l _. apply upsertEntry_nonempty.
Qed.

Lemma run_one_entry_per_user rooms_on_disconnect es :
  one_entry_per_user (run rooms_on_disconnect es).1.
Proof.
  apply (run_every_room (λ l, NoDup (map SocketUser.userId l))).
  - intros uid l Hnd _. by apply NoDup_userIds_filter.
  - intros user sid l [Hnd| ->]; [by apply upsertEntry_NoDup|].
    apply upsertEntry_NoDup. apply NoDup_nil_2.
Qed.


(** * Properties of the session layer *)

(** C9.  The owner of a note is authorized at every level, read or
    write, whatever the collaborators list holds. *)
Theorem owner_is_always_authorized (owner : string) (collaborators : list ICollaborator.t)
        (requiredRole : Role) :
  isUserAuthorized (INote.mk owner collaborators) owner requiredRole = true.
Proof. unfold isUserAuthorized. simpl. by rewrite bool_decide_eq_true_2. Qed.

(** C4.  When the authorization check refuses (read for [join-note],
    write for [note-update]) the listener leaves the whole state as it
    was and emits exactly once: an [error] addressed to the originating
    socket alone.  Nothing goes to a room. *)
Theorem refusal_changes_nothing (socketId noteId : string) (sk : Socket.t)
        (note : INote.t) (st : State) :
  sockets st !! socketId = Some sk →
  (isUserAuthorized note (AuthPayload.userId (Socket.user sk)) read = false →
   join_note socketId noteId (Resolved (Some note)) st =
   (st, [mkEmission (ToSocket socketId) {[ socketId ]} (error "Access denied to this note")]))
  ∧
  (isUserAuthorized note (AuthPayload.userId (Socket.user sk)) write = false →
   ∀ content title now,
     note_update socketId noteId content title (Resolved (Some note)) now st =
     (st, [mkEmission (ToSocket socketId) {[ socketId ]} (error "Write access denied")])).
Proof.
  intros Hs. split.
  - intros Hno. unfold join_note. rewrite Hs. simpl. by rewrite Hno.
  - intros Hno content title now. unfold note_update. rewrite Hs. simpl. by rewrite Hno.
Qed.

(** carol, who is on neither note, asks to join the first one and to
    write to it. *)
Lemma refusal_changes_nothing_witness :
  let st := (run rooms_kept (both_in_n1 ++ [on_connection "s3" (Some carol)])).1 in
  sockets st !! "s3" = Some (Socket.mk carol ["s3"])
  ∧ isUserAuthorized note1 "u3" read = false
  ∧ isUserAuthorized note1 "u3" write = false
  ∧ join_note "s3" "n1" (Resolved (Some note1)) st =
      (st, [mkEmission (ToSocket "s3") {[ "s3" ]} (error "Access denied to this note")])
  ∧ note_update "s3" "n1" "text" None (Resolved (Some note1)) 0 st =
      (st, [mkEmission (ToSocket "s3") {[ "s3" ]} (error "Write access denied")]).
Proof.
  intros st.
  assert (sockets st !! "s3" = Some (Socket.mk carol ["s3"])) as Hs
    by (vm_compute; reflexivity).
  assert (isUserAuthorized note1 "u3" read = false) as Hr by (vm_compute; reflexivity).
  assert (isUserAuthorized note1 "u3" write = false) as Hw by (vm_compute; reflexivity).
  destruct (refusal_changes_nothing "s3" "n1" (Socket.mk carol ["s3"]) note1 st Hs)
    as [Hjoin Hupdate].
  split; [exact Hs|]. split; [exact Hr|]. split; [exact Hw|]. split.
  - exact (Hjoin Hr).
  - exact (Hupdate Hw "text" None 0%Z).
Defined.

(** C10, as the code has it.  A [join-note] whose lookup resolves to no
    note is answered exactly like a refused one: same single [error]
    to the requester, same untouched state, so the two cannot be told
    apart.  That is the case of every note id the cast accepts and the
    collection does not hold.  A [join-note] whose lookup fails, as it
    does for every note id the cast does not accept (the listener does
    not check the id first), is answered differently: a single [error]
    with 'Failed to join note' to the requester, the state untouched
    as well. *)
Theorem missing_note_looks_like_refusal (socketId noteId : string) (sk : Socket.t) (st : State) :
  sockets st !! socketId = Some sk →
  join_note socketId noteId (Resolved None) st =
    (st, [mkEmission (ToSocket socketId) {[ socketId ]} (error "Access denied to this note")])
  ∧ (∀ note, isUserAuthorized note (AuthPayload.userId (Socket.user sk)) read = false →
       join_note socketId noteId (Resolved (Some note)) st
       = join_note socketId noteId (Resolved None) st)
  ∧ join_note socketId noteId Rejected st =
      (st, [mkEmission (ToSocket socketId) {[ socketId ]} (error "Failed to join note")])
  ∧ (∀ castable collection,
       castable noteId = true → collection noteId = None →
       join_note socketId noteId (findById castable collection noteId) st =
       (st, [mkEmission (ToSocket socketId) {[ socketId ]} (error "Access denied to this note")]))
  ∧ (∀ castable collection,
       castable noteId = false →
       join_note socketId noteId (findById castable collection noteId) st =
       (st, [mkEmission (ToSocket socketId) {[ socketId ]} (error "Failed to join note")])).
Proof.
  intros Hs.
  assert (join_note socketId noteId (Resolved None) st =
          (st, [mkEmission (ToSocket socketId) {[ socketId ]}
                           (error "Access denied to this note")])) as Hnone
    by (unfold join_note; by rewrite Hs).
  assert (join_note socketId noteId Rejected st =
          (st, [mkEmission (ToSocket socketId) {[ socketId ]}
                           (error "Failed to join note")])) as Hrej
    by (unfold join_note; by rewrite Hs).
  split; [exact Hnone|]. split; [|split; [exact Hrej|split]].
  - intros note Hno. unfold join_note. rewrite Hs. simpl. by rewrite Hno.
  - intros castable collection Hc Hm. unfold findById. by rewrite Hc, Hm.
  - intros castable collection Hc. unfold findById. by rewrite Hc.
Qed.

(** carol asks for a well-formed id that no note carries, then for a
    note she is not on, then for an id that is not well formed. *)
Lemma missing_note_looks_like_refusal_witness :
  let st := (run rooms_kept (both_in_n1 ++ [on_connection "s3" (Some carol)])).1 in
  let nobody : string → option INote.t := λ _, None in
  sockets st !! "s3" = Some (Socket.mk carol ["s3"])
  ∧ isUserAuthorized note1 "u3" read = false
  ∧ isHex24 "507f1f77bcf86cd799439011" = true
  ∧ isHex24 "n9" = false
  ∧ join_note "s3" "507f1f77bcf86cd799439011"
              (findById isHex24 nobody "507f1f77bcf86cd799439011") st =
      (st, [mkEmission (ToSocket "s3") {[ "s3" ]} (error "Access denied to this note")])
  ∧ join_note "s3" "507f1f77bcf86cd799439011" (Resolved (Some note1)) st
    = join_note "s3" "507f1f77bcf86cd799439011" (Resolved None) st
  ∧ join_note "s3" "n9" (findById isHex24 nobody "n9") st =
      (st, [mkEmission (ToSocket "s3") {[ "s3" ]} (error "Failed to join note")]).
Proof.
  intros st nobody.
  assert (sockets st !! "s3" = Some (Socket.mk carol ["s3"])) as Hs
    by (vm_compute; reflexivity).
  assert (isUserAuthorized note1 "u3" read = false) as Hr by (vm_compute; reflexivity).
  assert (isHex24 "507f1f77bcf86cd799439011" = true) as Hgood by (vm_compute; reflexivity).
  assert (isHex24 "n9" = false) as Hbad by (vm_compute; reflexivity).
  destruct (missing_note_looks_like_refusal "s3" "507f1f77bcf86cd799439011"
              (Socket.mk carol ["s3"]) st Hs) as (_ & Hsame & _ & Hmissing & _).
  destruct (missing_note_looks_like_refusal "s3" "n9" (Socket.mk carol ["s3"]) st Hs)
    as (_ & _ & _ & _ & Hmalformed).
  split; [exact Hs|]. split; [exact Hr|]. split; [exact Hgood|]. split; [exact Hbad|].
  split; [exact (Hmissing isHex24 nobody Hgood eq_refl)|].
  split; [exact (Hsame note1 Hr)|].
  exact (Hmalformed isHex24 nobody Hbad).
Defined.

(** C10 as stated fails for a note id that is not well formed.  The
    collection holds one note, which carol is not on.  The id 'n9'
    resolves to no existing note, and the cast to an ObjectId does not
    accept it: carol's [join-note] for it makes the lookup fail, and
    she is told 'Failed to join note'.  For the note she has no access
    to she is told 'Access denied to this note': she can tell the two
    apart. *)
Lemma malformed_note_id_is_told_apart :
  let st := (run rooms_kept (both_in_n1 ++ [on_connection "s3" (Some carol)])).1 in
  let stored := "507f1f77bcf86cd799439011" in
  let notes : string → option INote.t :=
    λ id, if bool_decide (id = stored) then Some note1 else None in
  notes "n9" = None
  ∧ join_note "s3" "n9" (findById isHex24 notes "n9") st =
      (st, [mkEmission (ToSocket "s3") {[ "s3" ]} (error "Failed to join note")])
  ∧ join_note "s3" stored (findById isHex24 notes stored) st =
      (st, [mkEmission (ToSocket "s3") {[ "s3" ]} (error "Access denied to this note")])
  ∧ (join_note "s3" "n9" (findById isHex24 notes "n9") st).2
    ≠ (join_note "s3" stored (findById isHex24 notes stored) st).2.
Proof.
  intros st stored notes. split; [vm_compute; reflexivity|]. split; [|split].
  - vm_compute. reflexivity.
  - vm_compute. reflexivity.
  - apply (bool_decide_unpack _). vm_compute. exact I.
Qed.

(** C5.  After any history of events the table holds no room with an
    empty membership.  The two mechanisms behind it: a [join-note] that
    brings a room into the table leaves the joiner's entry in it, and a
    [handleUserLeaveRoom] that removes the last entries of a room
    deletes the room in the same call. *)
Theorem no_room_is_ever_empty (rooms_on_disconnect : list string → list string) :
  (∀ es, no_empty_room (run rooms_on_disconnect es).1)
  ∧ (∀ socketId noteId found st sk room,
       sockets st !! socketId = Some sk →
       noteRooms st !! noteId = None →
       noteRooms (join_note socketId noteId found st).1 !! noteId = Some room →
       ∃ u, u ∈ NoteRoom.users room ∧
            SocketUser.userId u = AuthPayload.userId (Socket.user sk) ∧
            SocketUser.socketId u = socketId)
  ∧ (∀ noteId userId st room,
       noteRooms st !! noteId = Some room →
       filter (λ u, SocketUser.userId u ≠ userId) (NoteRoom.users room) = [] →
       noteRooms (handleUserLeaveRoom noteId userId st).1 !! noteId = None).
Proof.
  split; [|split].
  - intros es. apply run_no_empty_room.
  - intros sid n found st sk room Hs Hnone Hsome.
    destruct found as [note|]; [|unfold join_note in Hsome; rewrite Hs in Hsome;
                                  simpl in Hsome; congruence].
    destruct (denied note (AuthPayload.userId (Socket.user sk)) read) eqn:Hd.
    { unfold join_note in Hsome. rewrite Hs, Hd in Hsome. simpl in Hsome. congruence. }
    apply getActiveUsersInNote_lookup in Hsome.
    rewrite (join_note_granted_state sid n note st sk Hs Hd), enterRoom_users in Hsome.
    rewrite decide_True in Hsome by done. rewrite <- Hsome.
    apply upsertEntry_entry.
  - intros n uid st room Hn Hf. unfold handleUserLeaveRoom. rewrite Hn, Hf. simpl.
    apply lookup_delete_eq.
Qed.

(** Every room has somebody in it after alice and bob open the first
    note and alice moves on to the second; bob's join of the first note
    created its room with his entry in it; and when bob, alone in the
    first note, is removed from it the room goes with him. *)
Lemma no_room_is_ever_empty_witness :
  let connected :=
    (run rooms_kept [on_connection "s1" (Some alice); on_connection "s2" (Some bob)]).1 in
  let bobs_room := NoteRoom.mk "n1" [SocketUser.mk "u2" "bob" "s2"] in
  no_empty_room (run rooms_kept (both_in_n1 ++ [on_join_note "s1" "n2" (Resolved (Some note2))])).1
  ∧ sockets connected !! "s2" = Some (Socket.mk bob ["s2"])
  ∧ noteRooms connected !! "n1" = None
  ∧ noteRooms (join_note "s2" "n1" (Resolved (Some note1)) connected).1 !! "n1" = Some bobs_room
  ∧ (∃ u, u ∈ NoteRoom.users bobs_room ∧
          SocketUser.userId u = "u2" ∧ SocketUser.socketId u = "s2")
  ∧ noteRooms (run rooms_kept bob_in_n1).1 !! "n1" = Some bobs_room
  ∧ filter (λ u, SocketUser.userId u ≠ "u2") (NoteRoom.users bobs_room) = []
  ∧ noteRooms (handleUserLeaveRoom "n1" "u2" (run rooms_kept bob_in_n1).1).1 !! "n1" = None.
Proof.
  intros connected bobs_room.
  destruct (no_room_is_ever_empty rooms_kept) as (Hinv & Hcreate & Hdelete).
  assert (sockets connected !! "s2" = Some (Socket.mk bob ["s2"])) as Hs
    by (vm_compute; reflexivity).
  assert (noteRooms connected !! "n1" = None) as Hnone by (vm_compute; reflexivity).
  assert (noteRooms (join_note "s2" "n1" (Resolved (Some note1)) connected).1 !! "n1"
          = Some bobs_room) as Hsome by (vm_compute; reflexivity).
  assert (noteRooms (run rooms_kept bob_in_n1).1 !! "n1" = Some bobs_room) as Hroom
    by (vm_compute; reflexivity).
  assert (filter (λ u, SocketUser.userId u ≠ "u2") (NoteRoom.users bobs_room) = []) as Hlast
    by (vm_compute; reflexivity).
  split; [apply Hinv|]. split; [exact Hs|]. split; [exact Hnone|]. split; [exact Hsome|].
  split; [exact (Hcreate "s2" "n1" _ connected _ bobs_room Hs Hnone Hsome)|].
  split; [exact Hroom|]. split; [exact Hlast|].
  exact (Hdelete "n1" "u2" _ bobs_room Hroom Hlast).
Defined.

(** C6, as the code has it.  After any history every room holds at
    most one entry per user.  When a user who already has an entry in a
    room joins that room again, the number of entries does not change;
    the entry is overwritten where it stands (only its socket id
    changes) when the joining socket is not itself in the socket.io
    room of the note, as with a reconnection under a new socket; when
    the joining socket is already in that room, the listener first
    leaves the room on its behalf, so the old entry is removed and a
    fresh one is pushed at the end. *)
Theorem one_entry_per_user_and_rejoin (rooms_on_disconnect : list string → list string) :
  (∀ es, one_entry_per_user (run rooms_on_disconnect es).1)
  ∧ (∀ socketId noteId note st sk i u,
       sockets st !! socketId = Some sk →
       isUserAuthorized note (AuthPayload.userId (Socket.user sk)) read = true →
       one_entry_per_user st →
       getActiveUsersInNote noteId st !! i = Some u →
       SocketUser.userId u = AuthPayload.userId (Socket.user sk) →
       let after :=
         getActiveUsersInNote noteId (join_note socketId noteId (Resolved (Some note)) st).1 in
       length after = length (getActiveUsersInNote noteId st)
       ∧ (¬ occupies socketId noteId st →
          after = <[i := SocketUser.mk (SocketUser.userId u) (SocketUser.username u) socketId]>
                    (getActiveUsersInNote noteId st))
       ∧ (occupies socketId noteId st → socketId ≠ roomName noteId →
          after = filter (λ v, SocketUser.userId v ≠ AuthPayload.userId (Socket.user sk))
                         (getActiveUsersInNote noteId st)
                  ++ [SocketUser.mk (AuthPayload.userId (Socket.user sk))
                                    (AuthPayload.username (Socket.user sk)) socketId])).
Proof.
  split.
  - intros es. apply run_one_entry_per_user.
  - intros sid n note st sk i u Hs Hauth Hone Hi Hu after.
    assert (denied (Some note) (AuthPayload.userId (Socket.user sk)) read = false) as Hd
      by (simpl; by rewrite Hauth).
    assert (NoDup (map SocketUser.userId (getActiveUsersInNote n st))) as Hnd.
    { unfold getActiveUsersInNote. destruct (noteRooms st !! n) as [room|] eqn:Hn.
      - by eapply Hone.
      - apply NoDup_nil_2. }
    assert (AuthPayload.userId (Socket.user sk) ∈ map SocketUser.userId (getActiveUsersInNote n st))
      as Hmem.
    { rewrite <- Hu. apply list_elem_of_In, in_map, list_elem_of_In.
      by eapply list_elem_of_lookup_2. }
    assert (occupies sid n st ↔ roomName n ∈ Socket.rooms sk) as Hocc.
    { unfold occupies. rewrite elem_of_room_sockets. split.
      - intros (sk' & Hsk' & Hin). congruence.
      - intros Hin. eauto. }
    assert (roomName n ∈ currentRooms sid (Socket.rooms sk)
            ↔ roomName n ≠ sid ∧ roomName n ∈ Socket.rooms sk) as Hcur
      by (unfold currentRooms; by rewrite list_elem_of_filter).
    subst after.
    rewrite (join_note_granted_state sid n (Some note) st sk Hs Hd), enterRoom_users.
    rewrite decide_True by done. rewrite leaveExistingRooms_users.
    destruct (decide (roomName n ∈ currentRooms sid (Socket.rooms sk))) as [Hin|Hin].
    + rewrite upsertEntry_absent by apply userIds_filter.
      split; [|split].
      * rewrite length_app. simpl. rewrite Nat.add_1_r. by apply length_filter_member.
      * intros Hno. exfalso. apply Hno, Hocc. by apply Hcur.
      * done.
    + rewrite (upsertEntry_present _ _ _ i u) by done.
      split; [|split].
      * apply length_insert.
      * done.
      * intros Hyes Hne. exfalso. apply Hin, Hcur. split; [congruence|by apply Hocc].
Qed.

(** alice, present in the first note through socket s1, opens it again
    from a new socket s3: her entry stays first and now points to s3. *)
Lemma one_entry_per_user_and_rejoin_witness :
  let st := (run rooms_kept (both_in_n1 ++ [on_connection "s3" (Some alice)])).1 in
  let after := getActiveUsersInNote "n1" (join_note "s3" "n1" (Resolved (Some note1)) st).1 in
  sockets st !! "s3" = Some (Socket.mk alice ["s3"])
  ∧ isUserAuthorized note1 "u1" read = true
  ∧ one_entry_per_user st
  ∧ getActiveUsersInNote "n1" st !! 0 = Some (SocketUser.mk "u1" "alice" "s1")
  ∧ ¬ occupies "s3" "n1" st
  ∧ length after = length (getActiveUsersInNote "n1" st)
  ∧ after = <[0 := SocketUser.mk "u1" "alice" "s3"]> (getActiveUsersInNote "n1" st).
Proof.
  intros st after. destruct (one_entry_per_user_and_rejoin rooms_kept) as [Hinv Hrejoin].
  assert (sockets st !! "s3" = Some (Socket.mk alice ["s3"])) as Hs
    by (vm_compute; reflexivity).
  assert (isUserAuthorized note1 "u1" read = true) as Hr by (vm_compute; reflexivity).
  assert (getActiveUsersInNote "n1" st !! 0 = Some (SocketUser.mk "u1" "alice" "s1")) as Hi
    by (vm_compute; reflexivity).
  assert (¬ occupies "s3" "n1" st) as Hout
    by (apply (bool_decide_unpack _); vm_compute; exact I).
  destruct (Hrejoin "s3" "n1" note1 st (Socket.mk alice ["s3"]) 0
              (SocketUser.mk "u1" "alice" "s1") Hs Hr (Hinv _) Hi eq_refl)
    as (Hlen & Hplace & _).
  split; [exact Hs|]. split; [exact Hr|]. split; [apply Hinv|]. split; [exact Hi|].
  split; [exact Hout|]. split; [exact Hlen|]. exact (Hplace Hout).
Defined.

(** C6 as stated fails when the member joins again from the socket that
    is already in the room.  alice (s1) and bob (s2) are in the first
    note, alice first; alice sends [join-note] for it once more.  Her
    entry is not overwritten in place: bob is told she left, and her
    entry comes back last. *)
Lemma rejoin_from_same_socket_moves_entry :
  let st := (run rooms_kept both_in_n1).1 in
  let rejoin := join_note "s1" "n1" (Resolved (Some note1)) st in
  getActiveUsersInNote "n1" st
    = [SocketUser.mk "u1" "alice" "s1"; SocketUser.mk "u2" "bob" "s2"]
  ∧ getActiveUsersInNote "n1" rejoin.1
    = [SocketUser.mk "u2" "bob" "s2"; SocketUser.mk "u1" "alice" "s1"]
  ∧ getActiveUsersInNote "n1" rejoin.1
    ≠ <[0 := SocketUser.mk "u1" "alice" "s1"]> (getActiveUsersInNote "n1" st)
  ∧ mkEmission (ToRoom "note:n1") {[ "s2" ]}
               (user_left "u1" [ActiveUser.mk "u2" "bob"]) ∈ rejoin.2.
Proof.
  intros st rejoin. split; [|split; [|split]].
  - vm_compute. reflexivity.
  - vm_compute. reflexivity.
  - apply (bool_decide_unpack _). vm_compute. exact I.
  - apply (bool_decide_unpack _). vm_compute. exact I.
Qed.

(** C7.  A successful [join-note] ends with exactly two emissions, which
    follow whatever [user-left] the leaving of earlier rooms produced:
    [user-joined], addressed to the socket.io room of the note without
    the joining socket, and [joined-note], addressed to the joining
    socket alone.  [user-joined] names the joiner by the user id and
    user name of the socket.  Both carry the same roster: one
    [{userId, username}] pair per entry of the room, in the order of
    the entries, read from the table after the upsert, so that the
    joiner's entry, bound to this socket, is in it.  The joiner is in
    the socket.io room by then and is the only socket of the room left
    out of [user-joined]. *)
Theorem join_notifications (socketId noteId : string) (note : INote.t) (st : State)
        (sk : Socket.t) :
  sockets st !! socketId = Some sk →
  isUserAuthorized note (AuthPayload.userId (Socket.user sk)) read = true →
  let joined := join_note socketId noteId (Resolved (Some note)) st in
  let members := getActiveUsersInNote noteId joined.1 in
  let roster :=
    map (λ u, ActiveUser.mk (SocketUser.userId u) (SocketUser.username u)) members in
  let joiner := ActiveUser.mk (AuthPayload.userId (Socket.user sk))
                              (AuthPayload.username (Socket.user sk)) in
  (∃ pre, only_user_left pre ∧
     joined.2 = pre ++
       [ mkEmission (ToRoomExcept (roomName noteId) socketId)
                    (room_sockets joined.1 (roomName noteId) ∖ {[ socketId ]})
                    (user_joined joiner roster);
         mkEmission (ToSocket socketId) {[ socketId ]} (joined_note noteId roster) ])
  ∧ (∃ u, u ∈ members ∧
          SocketUser.userId u = AuthPayload.userId (Socket.user sk) ∧
          SocketUser.socketId u = socketId ∧
          ActiveUser.mk (SocketUser.userId u) (SocketUser.username u) ∈ roster)
  ∧ AuthPayload.userId (Socket.user sk) ∈ map ActiveUser.userId roster
  ∧ members =
      upsertEntry (Socket.user sk) socketId
        (if decide (roomName noteId ∈ currentRooms socketId (Socket.rooms sk))
         then filter (λ u, SocketUser.userId u ≠ AuthPayload.userId (Socket.user sk))
                     (getActiveUsersInNote noteId st)
         else getActiveUsersInNote noteId st)
  ∧ socketId ∈ room_sockets joined.1 (roomName noteId)
  ∧ room_sockets joined.1 (roomName noteId) ∖ {[ socketId ]}
    = room_sockets st (roomName noteId) ∖ {[ socketId ]}.
Proof.
  intros Hs Hauth joined members roster joiner.
  assert (denied (Some note) (AuthPayload.userId (Socket.user sk)) read = false) as Hd
    by (simpl; by rewrite Hauth).
  set (uid := AuthPayload.userId (Socket.user sk)) in *.
  set (st1 := (leaveExistingRooms socketId uid (Socket.rooms sk) st).1).
  assert (joined.1 = (enterRoom socketId noteId (Socket.user sk) st1).1) as Hst
    by apply (join_note_granted_state socketId noteId (Some note) st sk Hs Hd).
  assert (∃ sk1, sockets st1 !! socketId = Some sk1) as [sk1 Hs1].
  { pose proof (leaveExistingRooms_user socketId uid (Socket.rooms sk) st socketId) as Hu.
    fold st1 in Hu. rewrite Hs in Hu. destruct (sockets st1 !! socketId); [eauto|done]. }
  assert (room_sockets joined.1 (roomName noteId)
          = room_sockets st1 (roomName noteId) ∪ {[ socketId ]}) as Hrooms
    by (rewrite Hst; by eapply enterRoom_room_sockets).
  assert (members = upsertEntry (Socket.user sk) socketId (getActiveUsersInNote noteId st1))
    as Hmembers.
  { subst members. rewrite Hst, enterRoom_users. by rewrite decide_True. }
  assert (∃ u, u ∈ members ∧ SocketUser.userId u = uid ∧ SocketUser.socketId u = socketId)
    as (u & Hin & Hu & Hsock).
  { rewrite Hmembers. apply upsertEntry_entry. }
  assert (ActiveUser.mk (SocketUser.userId u) (SocketUser.username u) ∈ roster) as Hlisted.
  { subst roster. apply list_elem_of_In.
    apply (in_map (λ u, ActiveUser.mk (SocketUser.userId u) (SocketUser.username u))).
    by apply list_elem_of_In. }
  split; [|split; [|split; [|split; [|split]]]].
  - exists (leaveExistingRooms socketId uid (Socket.rooms sk) st).2.
    split; [apply leaveExistingRooms_out|].
    subst joined roster members joiner.
    rewrite (join_note_granted_out socketId noteId (Some note) st sk Hs Hd).
    rewrite (join_note_granted_state socketId noteId (Some note) st sk Hs Hd).
    done.
  - exists u. done.
  - apply list_elem_of_In, in_map_iff.
    exists (ActiveUser.mk (SocketUser.userId u) (SocketUser.username u)).
    split; [done|]. by apply list_elem_of_In.
  - rewrite Hmembers. unfold st1. by rewrite leaveExistingRooms_users.
  - rewrite Hrooms. apply elem_of_union. right. by apply elem_of_singleton.
  - rewrite Hrooms. unfold st1. rewrite leaveExistingRooms_room_sockets.
    apply set_eq. intros x. case_decide;
      rewrite !elem_of_difference, elem_of_union, ?elem_of_difference; tauto.
Qed.

(** bob opens the first note, where alice already is: alice's socket is
    told that bob joined, bob's socket gets the acknowledgement, and
    both carry the roster alice, bob. *)
Lemma join_notifications_witness :
  let st := (run rooms_kept [on_connection "s1" (Some alice); on_connection "s2" (Some bob);
                             on_join_note "s1" "n1" (Resolved (Some note1))]).1 in
  let joined := join_note "s2" "n1" (Resolved (Some note1)) st in
  let roster := [ActiveUser.mk "u1" "alice"; ActiveUser.mk "u2" "bob"] in
  sockets st !! "s2" = Some (Socket.mk bob ["s2"])
  ∧ isUserAuthorized note1 "u2" read = true
  ∧ map (λ u, ActiveUser.mk (SocketUser.userId u) (SocketUser.username u))
        (getActiveUsersInNote "n1" joined.1) = roster
  ∧ room_sockets joined.1 (roomName "n1") ∖ {[ "s2" ]} = {[ "s1" ]}
  ∧ (∃ pre, only_user_left pre ∧
       joined.2 = pre ++
         [ mkEmission (ToRoomExcept (roomName "n1") "s2") {[ "s1" ]}
                      (user_joined (ActiveUser.mk "u2" "bob") roster);
           mkEmission (ToSocket "s2") {[ "s2" ]} (joined_note "n1" roster) ])
  ∧ "u2" ∈ map ActiveUser.userId roster
  ∧ "s2" ∈ room_sockets joined.1 (roomName "n1").
Proof.
  intros st joined roster.
  assert (sockets st !! "s2" = Some (Socket.mk bob ["s2"])) as Hs
    by (vm_compute; reflexivity).
  assert (isUserAuthorized note1 "u2" read = true) as Hr by (vm_compute; reflexivity).
  assert (map (λ u, ActiveUser.mk (SocketUser.userId u) (SocketUser.username u))
              (getActiveUsersInNote "n1" joined.1) = roster) as Hroster
    by (vm_compute; reflexivity).
  assert (room_sockets joined.1 (roomName "n1") ∖ {[ "s2" ]} = {[ "s1" ]}) as Hothers
    by (vm_compute; reflexivity).
  destruct (join_notifications "s2" "n1" note1 st (Socket.mk bob ["s2"]) Hs Hr)
    as (Hout & _ & Hlisted & _ & Hin & _).
  fold joined in Hout, Hlisted, Hin. simpl Socket.user in *.
  rewrite Hroster in Hout, Hlisted. rewrite Hothers in Hout.
  split; [exact Hs|]. split; [exact Hr|]. split; [exact Hroster|]. split; [exact Hothers|].
  split; [exact Hout|]. split; [exact Hlisted|exact Hin].
Defined.

(** What the two emissions of that join look like. *)
Example join_notifications_example :
  (join_note "s2" "n1" (Resolved (Some note1))
     (run rooms_kept [on_connection "s1" (Some alice); on_connection "s2" (Some bob);
                      on_join_note "s1" "n1" (Resolved (Some note1))]).1).2 =
  [ mkEmission (ToRoomExcept "note:n1" "s2") {[ "s1" ]}
               (user_joined (ActiveUser.mk "u2" "bob")
                            [ActiveUser.mk "u1" "alice"; ActiveUser.mk "u2" "bob"]);
    mkEmission (ToSocket "s2") {[ "s2" ]}
               (joined_note "n1" [ActiveUser.mk "u1" "alice"; ActiveUser.mk "u2" "bob"]) ].
Proof. vm_compute. reflexivity. Qed.

(** C1.  A socket that is in the room of note [A] and is granted
    [join-note] for another note [B] goes through two phases, in this
    order.  First the listener leaves the existing rooms: in the state
    that phase ends in, the user has no entry in [A] any more, the
    socket is out of the socket.io room of [A], and everything emitted
    so far is a [user-left]; if anybody remains in [A], one of them is
    the [user-left] for [A], sent to the sockets that stay in its room
    with the roster that remains.  Only then is the user upserted into
    [B] and are [user-joined] and [joined-note] for [B] emitted, after
    all of the above in the output.  Hence the user is in [A] in no
    state from the end of the first phase on, and not in [B] before the
    second phase unless an earlier entry was already there. *)
Theorem switching_rooms_leaves_first (socketId A B : string) (note : INote.t) (st : State)
        (sk : Socket.t) :
  sockets st !! socketId = Some sk →
  roomName A ∈ Socket.rooms sk →
  socketId ≠ roomName A →
  B ≠ A →
  isUserAuthorized note (AuthPayload.userId (Socket.user sk)) read = true →
  let userId := AuthPayload.userId (Socket.user sk) in
  let left := leaveExistingRooms socketId userId (Socket.rooms sk) st in
  let entered := enterRoom socketId B (Socket.user sk) left.1 in
  let roster := activeUsers (getActiveUsersInNote B entered.1) in
  join_note socketId B (Resolved (Some note)) st = (entered.1, left.2 ++ entered.2)
  ∧ ¬ member userId A left.1
  ∧ ¬ occupies socketId A left.1
  ∧ getActiveUsersInNote A left.1
    = filter (λ u, SocketUser.userId u ≠ userId) (getActiveUsersInNote A st)
  ∧ only_user_left left.2
  ∧ (getActiveUsersInNote A left.1 ≠ [] →
     mkEmission (ToRoom (roomName A)) (room_sockets st (roomName A) ∖ {[ socketId ]})
                (user_left userId (activeUsers (getActiveUsersInNote A left.1)))
     ∈ left.2)
  ∧ (¬ member userId B st → ¬ member userId B left.1)
  ∧ entered.2 =
      [ mkEmission (ToRoomExcept (roomName B) socketId)
                   (room_sockets entered.1 (roomName B) ∖ {[ socketId ]})
                   (user_joined (userOf (Socket.user sk)) roster);
        mkEmission (ToSocket socketId) {[ socketId ]} (joined_note B roster) ]
  ∧ member userId B entered.1
  ∧ ¬ member userId A entered.1.
Proof.
  intros Hs HinA Hsid HBA Hauth userId left entered roster.
  assert (denied (Some note) userId read = false) as Hd
    by (simpl; subst userId; by rewrite Hauth).
  assert (roomName A ∈ currentRooms socketId (Socket.rooms sk)) as Hcur.
  { unfold currentRooms. apply list_elem_of_filter. split; [congruence|done]. }
  assert (getActiveUsersInNote A left.1
          = filter (λ u, SocketUser.userId u ≠ userId) (getActiveUsersInNote A st)) as HA.
  { subst left. by rewrite leaveExistingRooms_users, decide_True. }
  assert (¬ member userId A left.1) as HnotA.
  { unfold member. rewrite HA. apply userIds_filter. }
  split; [|split; [|split; [|split; [|split; [|split; [|split; [|split; [|split]]]]]]]].
  - apply (join_note_granted socketId B (Some note) st sk Hs Hd).
  - exact HnotA.
  - unfold occupies. subst left.
    rewrite leaveExistingRooms_room_sockets, decide_True by done.
    rewrite elem_of_difference, elem_of_singleton. tauto.
  - exact HA.
  - apply leaveExistingRooms_out.
  - rewrite HA. intros Hrest. by apply leaveExistingRooms_announces.
  - unfold member. subst left. rewrite leaveExistingRooms_users.
    case_decide; [|done]. intros Hno Hyes. apply Hno.
    apply list_elem_of_In, in_map_iff in Hyes as (u & Hu & Hin).
    apply list_elem_of_In, list_elem_of_filter in Hin as [_ Hin].
    rewrite <- Hu. apply list_elem_of_In, in_map, list_elem_of_In, Hin.
  - done.
  - unfold member. subst entered. rewrite enterRoom_users, decide_True by done.
    destruct (upsertEntry_entry (Socket.user sk) socketId (getActiveUsersInNote B left.1))
      as (u & Hin & Hu & _).
    unfold userId. rewrite <- Hu. apply list_elem_of_In, in_map, list_elem_of_In, Hin.
  - unfold member. subst entered. rewrite enterRoom_users, decide_False by done.
    exact HnotA.
Qed.

(** alice (s1) and bob (s2) are in the first note; alice switches to the
    second. *)
Lemma switching_rooms_leaves_first_witness :
  let st := (run rooms_kept both_in_n1).1 in
  let left := leaveExistingRooms "s1" "u1" ["s1"; "note:n1"] st in
  let entered := enterRoom "s1" "n2" alice left.1 in
  sockets st !! "s1" = Some (Socket.mk alice ["s1"; "note:n1"])
  ∧ roomName "n1" ∈ ["s1"; "note:n1"]
  ∧ "s1" ≠ roomName "n1"
  ∧ "n2" ≠ "n1"
  ∧ isUserAuthorized note2 "u1" read = true
  ∧ join_note "s1" "n2" (Resolved (Some note2)) st = (entered.1, left.2 ++ entered.2)
  ∧ ¬ member "u1" "n1" left.1
  ∧ (getActiveUsersInNote "n1" left.1 ≠ [] →
     mkEmission (ToRoom (roomName "n1")) (room_sockets st (roomName "n1") ∖ {[ "s1" ]})
                (user_left "u1" (activeUsers (getActiveUsersInNote "n1" left.1)))
     ∈ left.2)
  ∧ member "u1" "n2" entered.1
  ∧ ¬ member "u1" "n1" entered.1.
Proof.
  intros st left entered.
  assert (sockets st !! "s1" = Some (Socket.mk alice ["s1"; "note:n1"])) as Hs
    by (vm_compute; reflexivity).
  assert (roomName "n1" ∈ ["s1"; "note:n1"]) as Hin
    by (apply (bool_decide_unpack _); vm_compute; exact I).
  assert ("s1" ≠ roomName "n1") as Hsid by (vm_compute; discriminate).
  assert ("n2" ≠ "n1") as Hne by discriminate.
  assert (isUserAuthorized note2 "u1" read = true) as Hr by (vm_compute; reflexivity).
  destruct (switching_rooms_leaves_first "s1" "n1" "n2" note2 st
              (Socket.mk alice ["s1"; "note:n1"]) Hs Hin Hsid Hne Hr)
    as (Hjoin & HnotA & _ & _ & _ & Hleft & _ & _ & HinB & HnotA').
  repeat (split; [assumption|]). assumption.
Defined.

(** The whole output of that switch: bob is told alice left the first
    note, and only then do the emissions for the second note follow. *)
Example switching_rooms_example :
  (join_note "s1" "n2" (Resolved (Some note2)) (run rooms_kept both_in_n1).1).2 =
  [ mkEmission (ToRoom "note:n1") {[ "s2" ]} (user_left "u1" [ActiveUser.mk "u2" "bob"]);
    mkEmission (ToRoomExcept "note:n2" "s1") ∅
               (user_joined (ActiveUser.mk "u1" "alice") [ActiveUser.mk "u1" "alice"]);
    mkEmission (ToSocket "s1") {[ "s1" ]}
               (joined_note "n2" [ActiveUser.mk "u1" "alice"]) ].
Proof. vm_compute. reflexivity. Qed.

(** C2, as the code has it.  Neither listener looks at whether the
    sender is in the room it names.  [cursor-update] checks nothing: it
    always sends [cursor-updated] to the socket.io room of the note
    without the sender.  [note-update] has three outcomes, none of
    which depends on the sender being in the room: when the lookup of
    the note fails, [error] with 'Failed to update note' goes to the
    sender alone; when the note is missing or write authorization is
    refused, [error] with 'Write access denied' goes to the sender
    alone; otherwise [note-updated] goes to the room without the
    sender.  Nothing reaches the room in the first two, and the tables
    are left as they were in every case. *)
Theorem updates_ignore_room_occupancy (socketId noteId : string) (sk : Socket.t) (st : State) :
  sockets st !! socketId = Some sk →
  let user := Socket.user sk in
  let others := room_sockets st (roomName noteId) ∖ {[ socketId ]} in
  (∀ position selection,
     cursor_update socketId noteId position selection st =
     (st, [mkEmission (ToRoomExcept (roomName noteId) socketId) others
                      (cursor_updated (userOf user) position selection)]))
  ∧ (∀ content title note now,
       denied note (AuthPayload.userId user) write = true →
       note_update socketId noteId content title (Resolved note) now st =
       (st, [mkEmission (ToSocket socketId) {[ socketId ]} (error "Write access denied")]))
  ∧ (∀ content title note now,
       denied note (AuthPayload.userId user) write = false →
       note_update socketId noteId content title (Resolved note) now st =
       (st, [mkEmission (ToRoomExcept (roomName noteId) socketId) others
                        (note_updated noteId content title (userOf user) now)]))
  ∧ (∀ content title now,
       note_update socketId noteId content title Rejected now st =
       (st, [mkEmission (ToSocket socketId) {[ socketId ]} (error "Failed to update note")])).
Proof.
  intros Hs user others. split; [|split; [|split]].
  - intros position selection. unfold cursor_update. by rewrite Hs.
  - intros content title note now Hd. unfold note_update. rewrite Hs. simpl.
    fold user. by rewrite Hd.
  - intros content title note now Hd. unfold note_update. rewrite Hs. simpl.
    fold user. by rewrite Hd.
  - intros content title now. unfold note_update. by rewrite Hs.
Qed.

(** carol, connected and in no room, moves her cursor in the first note
    and tries to write to it; alice and bob are in that note, and alice
    writes to it, once with the lookup failing. *)
Lemma updates_ignore_room_occupancy_witness :
  let st := (run rooms_kept (both_in_n1 ++ [on_connection "s3" (Some carol)])).1 in
  sockets st !! "s3" = Some (Socket.mk carol ["s3"])
  ∧ denied (Some note1) "u3" write = true
  ∧ denied (Some note1) "u1" write = false
  ∧ cursor_update "s3" "n1" 7 None st =
      (st, [mkEmission (ToRoomExcept (roomName "n1") "s3")
                       (room_sockets st (roomName "n1") ∖ {[ "s3" ]})
                       (cursor_updated (userOf carol) 7 None)])
  ∧ note_update "s3" "n1" "text" None (Resolved (Some note1)) 0 st =
      (st, [mkEmission (ToSocket "s3") {[ "s3" ]} (error "Write access denied")])
  ∧ note_update "s1" "n1" "text" None (Resolved (Some note1)) 0 st =
      (st, [mkEmission (ToRoomExcept (roomName "n1") "s1")
                       (room_sockets st (roomName "n1") ∖ {[ "s1" ]})
                       (note_updated "n1" "text" None (userOf alice) 0)])
  ∧ note_update "s1" "n1" "text" None Rejected 0 st =
      (st, [mkEmission (ToSocket "s1") {[ "s1" ]} (error "Failed to update note")]).
Proof.
  intros st.
  assert (sockets st !! "s3" = Some (Socket.mk carol ["s3"])) as Hs3
    by (vm_compute; reflexivity).
  assert (sockets st !! "s1" = Some (Socket.mk alice ["s1"; "note:n1"])) as Hs1
    by (vm_compute; reflexivity).
  assert (denied (Some note1) "u3" write = true) as Hno by (vm_compute; reflexivity).
  assert (denied (Some note1) "u1" write = false) as Hyes by (vm_compute; reflexivity).
  destruct (updates_ignore_room_occupancy "s3" "n1" _ st Hs3) as (Hcursor & Hrefused & _ & _).
  destruct (updates_ignore_room_occupancy "s1" "n1" _ st Hs1) as (_ & _ & Hgranted & Hfailed).
  split; [exact Hs3|]. split; [exact Hno|]. split; [exact Hyes|].
  split; [exact (Hcursor 7%Z None)|].
  split; [exact (Hrefused "text" None (Some note1) 0%Z Hno)|].
  split; [exact (Hgranted "text" None (Some note1) 0%Z Hyes)|].
  exact (Hfailed "text" None 0%Z).
Defined.

(** C2 as stated fails: there is no in-room check.  bob (s2) is in the
    first note; alice (s1) is connected and has joined nothing.  Her
    [cursor-update] and her [note-update] for that note (she owns it)
    are not rejected: each payload is delivered to bob, and alice gets
    no error. *)
Lemma update_from_outside_the_room_is_broadcast :
  let st := (run rooms_kept bob_in_n1).1 in
  ¬ occupies "s1" "n1" st
  ∧ ¬ member "u1" "n1" st
  ∧ cursor_update "s1" "n1" 7 None st =
      (st, [mkEmission (ToRoomExcept "note:n1" "s1") {[ "s2" ]}
                       (cursor_updated (ActiveUser.mk "u1" "alice") 7 None)])
  ∧ note_update "s1" "n1" "text" None (Resolved (Some note1)) 0 st =
      (st, [mkEmission (ToRoomExcept "note:n1" "s1") {[ "s2" ]}
                       (note_updated "n1" "text" None (ActiveUser.mk "u1" "alice") 0)]).
Proof.
  intros st. split; [|split; [|split]].
  - apply (bool_decide_unpack _). vm_compute. exact I.
  - apply (bool_decide_unpack _). vm_compute. exact I.
  - vm_compute. reflexivity.
  - vm_compute. reflexivity.
Qed.




(** C8, as the code has it.  [getActiveUsersInNote] returns the
    [users] array of the room itself, the empty list when the table has
    no such room.  Its records are the full entries: dropping
    [socketId] from each gives exactly the [{userId, username}] list of
    the room's members, and every returned record carries its
    [socketId] after those two fields. *)
Theorem presence_is_the_room_entries (noteId : string) (st : State) :
  map toActiveUser (getActiveUsersInNote noteId st) = getPresence_spec noteId st
  ∧ (noteRooms st !! noteId = None → getActiveUsersInNote noteId st = [])
  ∧ (∀ room, noteRooms st !! noteId = Some room →
       getActiveUsersInNote noteId st = NoteRoom.users room)
  ∧ (∀ u, u ∈ getActiveUsersInNote noteId st →
       entries_SocketUser u
       = entries_ActiveUser (toActiveUser u) ++ [("socketId", SocketUser.socketId u)]).
Proof.
  unfold getActiveUsersInNote, getPresence_spec.
  destruct (noteRooms st !! noteId) as [room|]; repeat split; try done.
  intros room' [= <-]. done.
Qed.

Lemma presence_is_the_room_entries_witness :
  let st := (run rooms_kept both_in_n1).1 in
  let bobs := SocketUser.mk "u2" "bob" "s2" in
  noteRooms st !! "n9" = None
  ∧ bobs ∈ getActiveUsersInNote "n1" st
  ∧ getActiveUsersInNote "n9" st = []
  ∧ entries_SocketUser bobs = entries_ActiveUser (toActiveUser bobs) ++ [("socketId", "s2")].
Proof.
  intros st bobs.
  assert (noteRooms st !! "n9" = None) as Hnone by (vm_compute; reflexivity).
  assert (bobs ∈ getActiveUsersInNote "n1" st) as Hin
    by (apply (bool_decide_unpack _); vm_compute; exact I).
  destruct (presence_is_the_room_entries "n9" st) as (_ & Hempty & _).
  destruct (presence_is_the_room_entries "n1" st) as (_ & _ & _ & Hfields).
  split; [exact Hnone|]. split; [exact Hin|]. split; [exact (Hempty Hnone)|].
  exact (Hfields bobs Hin).
Defined.

(** C8 as stated fails: the records are not [{userId, username}] pairs.
    With bob (s2) in the first note, the one record returned for that
    note has three fields, the third being bob's socket id. *)
Lemma presence_records_carry_socket_id :
  let st := (run rooms_kept bob_in_n1).1 in
  map entries_SocketUser (getActiveUsersInNote "n1" st)
    = [[("userId", "u2"); ("username", "bob"); ("socketId", "s2")]]
  ∧ map entries_ActiveUser (getPresence_spec "n1" st)
    = [[("userId", "u2"); ("username", "bob")]]
  ∧ map entries_SocketUser (getActiveUsersInNote "n1" st)
    ≠ map entries_ActiveUser (getPresence_spec "n1" st).
Proof.
  intros st. split; [|split].
  - vm_compute. reflexivity.
  - vm_compute. reflexivity.
  - apply (bool_decide_unpack _). vm_compute. exact I.
Qed.

(** * Further properties *)

(** ** Authorization on a note ([isUserAuthorized]) *)

Lemma find_collaborator_Some (u : string) cs c :
  List.find (λ c, bool_decide (ICollaborator.user c = u)) cs = Some c →
  c ∈ cs ∧ ICollaborator.user c = u.
Proof.
  intros Hf. apply find_some in Hf as [Hin Hu].
  split; [by apply list_elem_of_In|]. by apply bool_decide_eq_true_1 in Hu.
Qed.

Lemma find_collaborator_None (u : string) cs :
  List.find (λ c, bool_decide (ICollaborator.user c = u)) cs = None →
  u ∉ map ICollaborator.user cs.
Proof.
  intros Hf Hin. apply list_elem_of_In, in_map_iff in Hin as (c & Hc & Hin).
  pose proof (find_none _ _ Hf c Hin) as Hno. simpl in Hno.
  by apply bool_decide_eq_false_1 in Hno.
Qed.

Lemma find_collaborator_is_Some (u : string) cs :
  u ∈ map ICollaborator.user cs →
  ∃ c, List.find (λ c, bool_decide (ICollaborator.user c = u)) cs = Some c.
Proof.
  intros Hin. destruct (List.find _ cs) as [c|] eqn:Hf; [eauto|].
  by apply find_collaborator_None in Hf.
Qed.

(** Entries with distinct users are told apart by their user. *)
Lemma collaborator_unique cs (c d : ICollaborator.t) :
  NoDup (map ICollaborator.user cs) → c ∈ cs → d ∈ cs →
  ICollaborator.user c = ICollaborator.user d → c = d.
Proof.
  induction cs as [|x cs IH]; simpl.
  - intros _ Hc. by apply elem_of_nil in Hc.
  - rewrite NoDup_cons. intros [Hx Hnd] Hc Hd Heq.
    apply elem_of_cons in Hc as [->|Hc]; apply elem_of_cons in Hd as [->|Hd]; try done.
    + exfalso. apply Hx. rewrite Heq. apply list_elem_of_In, in_map, list_elem_of_In, Hd.
    + exfalso. apply Hx. rewrite <- Heq. apply list_elem_of_In, in_map, list_elem_of_In, Hc.
    + by apply IH.
Qed.

Lemma isUserAuthorized_write_read note userId :
  isUserAuthorized note userId write = true → isUserAuthorized note userId read = true.
Proof.
  unfold isUserAuthorized. case_bool_decide; [done|].
  by destruct (List.find _ _).
Qed.

(** X1.  Whoever may write a note may read it. *)
Theorem write_access_implies_read_access (note : INote.t) (userId : string) :
  isUserAuthorized note userId write = true → isUserAuthorized note userId read = true.
Proof. apply isUserAuthorized_write_read. Qed.

Lemma write_access_implies_read_access_witness :
  isUserAuthorized note1 "u2" write = true ∧ isUserAuthorized note1 "u2" read = true.
Proof.
  assert (isUserAuthorized note1 "u2" write = true) as Hw by (vm_compute; reflexivity).
  split; [exact Hw|]. exact (write_access_implies_read_access note1 "u2" Hw).
Defined.

(** X2.  Read access is granted exactly to the owner and to the users
    listed as collaborators, whatever their role. *)
Theorem read_access_iff_owner_or_listed (note : INote.t) (userId : string) :
  isUserAuthorized note userId read = true ↔
  INote.owner note = userId ∨ userId ∈ map ICollaborator.user (INote.collaborators note).
Proof.
  unfold isUserAuthorized. case_bool_decide as Ho.
  - split; [by left|done].
  - destruct (List.find _ _) as [c|] eqn:Hf.
    + apply find_collaborator_Some in Hf as [Hin Hu]. split; [|done]. intros _. right.
      rewrite <- Hu. apply list_elem_of_In, in_map, list_elem_of_In, Hin.
    + apply find_collaborator_None in Hf. split; [done|]. intros [?|?]; done.
Qed.

(** X3.  When no user is listed twice, write access is granted exactly
    to the owner and to the users listed with the role [write]. *)
Theorem write_access_iff_owner_or_writer (note : INote.t) (userId : string) :
  NoDup (map ICollaborator.user (INote.collaborators note)) →
  (isUserAuthorized note userId write = true ↔
   INote.owner note = userId ∨ ICollaborator.mk userId write ∈ INote.collaborators note).
Proof.
  intros Hnd. unfold isUserAuthorized. case_bool_decide as Ho.
  - split; [by left|done].
  - destruct (List.find _ _) as [c|] eqn:Hf.
    + apply find_collaborator_Some in Hf as [Hin Hu]. split.
      * intros Hw. apply bool_decide_eq_true_1 in Hw. right.
        destruct c as [cu cr]. simpl in *. by subst.
      * intros [Hown|Hw]; [done|]. apply bool_decide_eq_true_2.
        by rewrite (collaborator_unique _ c (ICollaborator.mk userId write) Hnd Hin Hw Hu).
    + apply find_collaborator_None in Hf. split; [done|]. intros [Hown|Hw]; [done|].
      exfalso. apply Hf.
      apply list_elem_of_In, in_map_iff. exists (ICollaborator.mk userId write).
      split; [done|]. by apply list_elem_of_In.
Qed.

Lemma write_access_iff_owner_or_writer_witness :
  NoDup (map ICollaborator.user (INote.collaborators note2))
  ∧ (isUserAuthorized note2 "u1" write = true ↔
     INote.owner note2 = "u1" ∨ ICollaborator.mk "u1" write ∈ INote.collaborators note2).
Proof.
  assert (NoDup (map ICollaborator.user (INote.collaborators note2))) as Hnd
    by (apply (bool_decide_unpack _); vm_compute; exact I).
  split; [exact Hnd|]. exact (write_access_iff_owner_or_writer note2 "u1" Hnd).
Defined.

(** ** The version history ([addVersion]) *)

Lemma slice_last_length {A} n (l : list A) : length (slice_last n l) = length l `min` n.
Proof. unfold slice_last. rewrite length_drop. lia. Qed.

Lemma slice_last_suffix {A} n (l : list A) : take (length l - n) l ++ slice_last n l = l.
Proof. unfold slice_last. apply take_drop. Qed.


(** What an effective [addVersion] makes of the note: the last 50 of
    the old history followed by the new entry, the rest as it was. *)
Lemma addVersion_Some accepts this c m now :
  NoteDoc.content this ≠ c → accepts m = true →
  addVersion accepts this c m now =
  Some (NoteDoc.mk (NoteDoc.title this) (NoteDoc.content this) (NoteDoc.owner this)
          (NoteDoc.collaborators this)
          (slice_last 50
             (NoteDoc.versions this ++ [INoteVersion.mk (NoteDoc.content this) m now]))).
Proof.
  intros Hc Hm. unfold addVersion. rewrite bool_decide_eq_true_2 by done. rewrite Hm.
  do 2 f_equal. case_bool_decide as Hlen; [done|].
  unfold slice_last. replace (length _ - 50) with 0 by lia. done.
Qed.

(** X4.  An [addVersion] with a content other than the note's own and a
    modifier id the ObjectId constructor accepts adds one entry and
    caps the history at 50: the new length is the smaller of the old
    length plus one and 50. *)
Theorem addVersion_caps_history_at_50 (objectIdAccepts : string → bool)
        (this : NoteDoc.t) (content modifiedBy : string) (now : Z) :
  NoteDoc.content this ≠ content →
  objectIdAccepts modifiedBy = true →
  ∃ after,
    addVersion objectIdAccepts this content modifiedBy now = Some after
    ∧ length (NoteDoc.versions after) = S (length (NoteDoc.versions this)) `min` 50.
Proof.
  intros Hc Hm. eexists. split; [by apply addVersion_Some|]. simpl.
  rewrite slice_last_length, length_app. simpl. lia.
Qed.

(** X5.  Such an [addVersion] records the content the note had, not the
    one passed in: the history becomes a suffix of the old history
    followed by an entry holding the note's current content, that entry
    is the last one, nothing is dropped while fewer than 50 versions
    exist, and title, content, owner and collaborators are not
    touched.  With a modifier id the constructor refuses, the method
    ends in the constructor's exception instead. *)
Theorem addVersion_appends_previous_content (objectIdAccepts : string → bool)
        (this : NoteDoc.t) (content modifiedBy : string) (now : Z) :
  NoteDoc.content this ≠ content →
  let entry := INoteVersion.mk (NoteDoc.content this) modifiedBy now in
  (objectIdAccepts modifiedBy = true →
   ∃ after,
     addVersion objectIdAccepts this content modifiedBy now = Some after
     ∧ (∃ dropped, NoteDoc.versions this ++ [entry] = dropped ++ NoteDoc.versions after
                   ∧ (length (NoteDoc.versions this) < 50 → dropped = []))
     ∧ last (NoteDoc.versions after) = Some entry
     ∧ NoteDoc.content after = NoteDoc.content this
     ∧ NoteDoc.title after = NoteDoc.title this
     ∧ NoteDoc.view after = NoteDoc.view this)
  ∧ (objectIdAccepts modifiedBy = false →
     addVersion objectIdAccepts this content modifiedBy now = None).
Proof.
  intros Hc entry. split.
  - intros Hm. eexists. split; [by apply addVersion_Some|]. simpl.
    split; [|split; [|done]].
    + exists (take (length (NoteDoc.versions this ++ [entry]) - 50)
                   (NoteDoc.versions this ++ [entry])).
      split.
      * symmetry. apply slice_last_suffix.
      * intros Hlt. rewrite length_app. simpl.
        replace (length (NoteDoc.versions this) + 1 - 50) with 0 by lia. done.
    + unfold slice_last. rewrite length_app. simpl.
      rewrite drop_app_le by lia. apply last_snoc.
  - intros Hm. unfold addVersion. rewrite bool_decide_eq_true_2 by done. by rewrite Hm.
Qed.

(** A note with a full history of 50 versions. *)
Lemma addVersion_caps_history_at_50_witness :
  let alice_id := "507f1f77bcf86cd799439011" in
  let full := NoteDoc.mk "t" "new" alice_id []
                (replicate 50 (INoteVersion.mk "old" alice_id 0)) in
  NoteDoc.content full ≠ "newer"
  ∧ isHex24 alice_id = true
  ∧ ∃ after, addVersion isHex24 full "newer" alice_id 1 = Some after
             ∧ length (NoteDoc.versions after) = 51 `min` 50.
Proof.
  intros alice_id full.
  assert (NoteDoc.content full ≠ "newer") as Hc by (vm_compute; discriminate).
  assert (isHex24 alice_id = true) as Hm by (vm_compute; reflexivity).
  split; [exact Hc|]. split; [exact Hm|].
  exact (addVersion_caps_history_at_50 isHex24 full "newer" alice_id 1%Z Hc Hm).
Defined.

Lemma addVersion_appends_previous_content_witness :
  let alice_id := "507f1f77bcf86cd799439011" in
  let doc := NoteDoc.mk "t" "first draft" alice_id [] [] in
  NoteDoc.content doc ≠ "second draft"
  ∧ isHex24 alice_id = true
  ∧ isHex24 "u1" = false
  ∧ (∃ after, addVersion isHex24 doc "second draft" alice_id 5 = Some after
              ∧ last (NoteDoc.versions after)
                = Some (INoteVersion.mk "first draft" alice_id 5))
  ∧ addVersion isHex24 doc "second draft" "u1" 5 = None.
Proof.
  intros alice_id doc.
  assert (NoteDoc.content doc ≠ "second draft") as Hc by (vm_compute; discriminate).
  assert (isHex24 alice_id = true) as Hm by (vm_compute; reflexivity).
  assert (isHex24 "u1" = false) as Hbad by (vm_compute; reflexivity).
  destruct (addVersion_appends_previous_content isHex24 doc "second draft" alice_id 5%Z Hc)
    as [Hgood _].
  destruct (addVersion_appends_previous_content isHex24 doc "second draft" "u1" 5%Z Hc)
    as [_ Hthrows].
  destruct (Hgood Hm) as (after & Hafter & _ & Hlast & _).
  split; [exact Hc|]. split; [exact Hm|]. split; [exact Hbad|].
  split; [exists after; split; [exact Hafter|exact Hlast]|]. exact (Hthrows Hbad).
Defined.

(** ** The note controllers *)







(** *** Collaborators *)

Lemma upsertCollaborator_cons c r x cs :
  upsertCollaborator c r (x :: cs) =
  if decide (ICollaborator.user x = c) then ICollaborator.mk (ICollaborator.user x) r :: cs
  else x :: upsertCollaborator c r cs.
Proof.
  unfold upsertCollaborator. simpl. case_decide; [done|].
  destruct (list_find _ cs) as [[i y]|]; done.
Qed.

Lemma upsertCollaborator_nil c r : upsertCollaborator c r [] = [ICollaborator.mk c r].
Proof. done. Qed.

(** The entry [find] meets first for the user carries the new role. *)
Lemma find_upsertCollaborator c r cs :
  List.find (λ x, bool_decide (ICollaborator.user x = c)) (upsertCollaborator c r cs)
  = Some (ICollaborator.mk c r).
Proof.
  induction cs as [|x cs IH].
  - rewrite upsertCollaborator_nil. simpl. by rewrite bool_decide_eq_true_2.
  - rewrite upsertCollaborator_cons. case_decide as Hx; simpl.
    + rewrite bool_decide_eq_true_2 by done. by rewrite Hx.
    + by rewrite bool_decide_eq_false_2.
Qed.

Lemma find_upsertCollaborator_other c r u cs :
  u ≠ c →
  List.find (λ x, bool_decide (ICollaborator.user x = u)) (upsertCollaborator c r cs)
  = List.find (λ x, bool_decide (ICollaborator.user x = u)) cs.
Proof.
  intros Hu. induction cs as [|x cs IH].
  - rewrite upsertCollaborator_nil. simpl. by rewrite bool_decide_eq_false_2.
  - rewrite upsertCollaborator_cons. case_decide as Hx; simpl.
    + rewrite !bool_decide_eq_false_2 by congruence. done.
    + by rewrite IH.
Qed.

Lemma find_filter_removed c cs :
  List.find (λ x, bool_decide (ICollaborator.user x = c))
            (filter (λ x, ICollaborator.user x ≠ c) cs) = None.
Proof.
  induction cs as [|x cs IH]; [done|].
  destruct (decide (ICollaborator.user x = c)) as [Hx|Hx].
  - by rewrite filter_cons_False by (intros Hne; by apply Hne).
  - rewrite filter_cons_True by done. simpl. by rewrite bool_decide_eq_false_2.
Qed.

Lemma find_filter_other c u cs :
  u ≠ c →
  List.find (λ x, bool_decide (ICollaborator.user x = u))
            (filter (λ x, ICollaborator.user x ≠ c) cs)
  = List.find (λ x, bool_decide (ICollaborator.user x = u)) cs.
Proof.
  intros Hu. induction cs as [|x cs IH]; [done|].
  destruct (decide (ICollaborator.user x = c)) as [Hx|Hx].
  - rewrite filter_cons_False by (intros Hne; by apply Hne). simpl.
    by rewrite bool_decide_eq_false_2 by congruence.
  - rewrite filter_cons_True by done. simpl. by rewrite IH.
Qed.

Lemma filter_upsertCollaborator c r cs :
  filter (λ x, ICollaborator.user x ≠ c) (upsertCollaborator c r cs)
  = filter (λ x, ICollaborator.user x ≠ c) cs.
Proof.
  induction cs as [|x cs IH].
  - rewrite upsertCollaborator_nil. by rewrite filter_cons_False by (intros Hne; by apply Hne).
  - rewrite upsertCollaborator_cons. case_decide as Hx.
    + rewrite !filter_cons_False by (simpl; intros Hne; by apply Hne). done.
    + rewrite !filter_cons_True by done. by rewrite IH.
Qed.

Lemma users_upsertCollaborator c r cs :
  map ICollaborator.user (upsertCollaborator c r cs) =
  if decide (c ∈ map ICollaborator.user cs) then map ICollaborator.user cs
  else map ICollaborator.user cs ++ [c].
Proof.
  induction cs as [|x cs IH].
  - rewrite upsertCollaborator_nil.
    destruct (decide (c ∈ map ICollaborator.user [])) as [Hin|]; [|done].
    by apply elem_of_nil in Hin.
  - rewrite upsertCollaborator_cons.
    change (map ICollaborator.user (x :: cs))
      with (ICollaborator.user x :: map ICollaborator.user cs).
    destruct (decide (ICollaborator.user x = c)) as [Hx|Hx]; simpl.
    + rewrite decide_True; [done|]. rewrite Hx. apply list_elem_of_here.
    + rewrite IH. destruct (decide (c ∈ map ICollaborator.user cs)) as [Hin|Hin].
      * rewrite decide_True; [done|]. by apply list_elem_of_further.
      * rewrite decide_False; [done|]. rewrite elem_of_cons. intros [?|?]; congruence.
Qed.

Lemma addCollaborator_Done idValid note userId c role after :
  addCollaborator idValid (Some note) userId (Some c) role = Done after →
  NoteDoc.owner note = userId ∧
  after = NoteDoc.mk (NoteDoc.title note) (NoteDoc.content note) (NoteDoc.owner note)
            (upsertCollaborator c (default read role) (NoteDoc.collaborators note))
            (NoteDoc.versions note).
Proof.
  unfold addCollaborator. destruct idValid; [|done]. simpl.
  case_bool_decide as Ho; [done|]. intros [= <-]. split; [|done].
  by destruct (decide (NoteDoc.owner note = userId)).
Qed.

Lemma removeCollaborator_Done idValid cValid note userId c after :
  removeCollaborator idValid cValid (Some note) userId c = Done after →
  NoteDoc.owner note = userId ∧
  after = NoteDoc.mk (NoteDoc.title note) (NoteDoc.content note) (NoteDoc.owner note)
            (filter (λ x, ICollaborator.user x ≠ c) (NoteDoc.collaborators note))
            (NoteDoc.versions note).
Proof.
  unfold removeCollaborator. destruct idValid, cValid; try done. simpl.
  case_bool_decide as Ho; [done|]. intros [= <-]. split; [|done].
  by destruct (decide (NoteDoc.owner note = userId)).
Qed.

(** X8.  A successful [addCollaborator] sets the access of the user it
    names and of nobody else.  Afterwards that user, unless the owner,
    may read, and may write exactly when the role given was [write]: a
    request without a role, or with [read], takes write access away
    from a user who had it.  Every other user is authorized as
    before. *)
Theorem addCollaborator_sets_access (idValid : bool) (note after : NoteDoc.t)
        (userId user : string) (role : option Role) :
  addCollaborator idValid (Some note) userId (Some user) role = Done after →
  (user ≠ NoteDoc.owner note →
   isUserAuthorized (NoteDoc.view after) user read = true
   ∧ (isUserAuthorized (NoteDoc.view after) user write = true ↔ role = Some write))
  ∧ (∀ other level, other ≠ user →
       isUserAuthorized (NoteDoc.view after) other level
       = isUserAuthorized (NoteDoc.view note) other level).
Proof.
  intros Hdone. apply addCollaborator_Done in Hdone as [_ ->].
  unfold isUserAuthorized, NoteDoc.view. simpl. split.
  - intros Hu. rewrite bool_decide_eq_false_2 by done.
    rewrite find_upsertCollaborator. simpl. split; [done|].
    rewrite bool_decide_eq_true. destruct role as [[|]|]; simpl; split; congruence.
  - intros other level Ho. by rewrite find_upsertCollaborator_other.
Qed.

(** alice takes write access away from bob by adding him again without
    a role; carol, who is not concerned, stays without access. *)
Lemma addCollaborator_sets_access_witness :
  let doc := NoteDoc.mk "plan" "draft" "u1" [ICollaborator.mk "u2" write] [] in
  let after := NoteDoc.mk "plan" "draft" "u1" [ICollaborator.mk "u2" read] [] in
  addCollaborator true (Some doc) "u1" (Some "u2") None = Done after
  ∧ "u2" ≠ NoteDoc.owner doc
  ∧ "u3" ≠ "u2"
  ∧ isUserAuthorized (NoteDoc.view doc) "u2" write = true
  ∧ isUserAuthorized (NoteDoc.view after) "u2" read = true
  ∧ (isUserAuthorized (NoteDoc.view after) "u2" write = true ↔ None = Some write)
  ∧ isUserAuthorized (NoteDoc.view after) "u3" read
    = isUserAuthorized (NoteDoc.view doc) "u3" read.
Proof.
  intros doc after.
  assert (addCollaborator true (Some doc) "u1" (Some "u2") None = Done after) as Ha
    by (vm_compute; reflexivity).
  assert ("u2" ≠ NoteDoc.owner doc) as Hne by (vm_compute; discriminate).
  assert ("u3" ≠ "u2") as Hother by discriminate.
  destruct (addCollaborator_sets_access true doc after "u1" "u2" None Ha) as [Hset Hframe].
  destruct (Hset Hne) as [Hr Hw].
  split; [exact Ha|]. split; [exact Hne|]. split; [exact Hother|].
  split; [vm_compute; reflexivity|]. split; [exact Hr|]. split; [exact Hw|].
  exact (Hframe "u3" read Hother).
Defined.

(** X9.  A successful [removeCollaborator] takes every access away from
    the user it names, unless that user is the owner, who stays
    authorized; every other user is authorized as before. *)
Theorem removeCollaborator_revokes_access (idValid collaboratorIdValid : bool)
        (note after : NoteDoc.t) (userId collaboratorId : string) :
  removeCollaborator idValid collaboratorIdValid (Some note) userId collaboratorId = Done after →
  (collaboratorId ≠ NoteDoc.owner note →
   ∀ level, isUserAuthorized (NoteDoc.view after) collaboratorId level = false)
  ∧ (∀ level, isUserAuthorized (NoteDoc.view after) (NoteDoc.owner note) level = true)
  ∧ (∀ other level, other ≠ collaboratorId →
       isUserAuthorized (NoteDoc.view after) other level
       = isUserAuthorized (NoteDoc.view note) other level).
Proof.
  intros Hdone. apply removeCollaborator_Done in Hdone as [_ ->].
  unfold isUserAuthorized, NoteDoc.view. simpl. split; [|split].
  - intros Hc level. rewrite bool_decide_eq_false_2 by done.
    by rewrite find_filter_removed.
  - intros level. by rewrite bool_decide_eq_true_2.
  - intros other level Ho. by rewrite find_filter_other.
Qed.

Lemma removeCollaborator_revokes_access_witness :
  let doc := NoteDoc.mk "plan" "draft" "u1" [ICollaborator.mk "u2" write] [] in
  let after := NoteDoc.mk "plan" "draft" "u1" [] [] in
  removeCollaborator true true (Some doc) "u1" "u2" = Done after
  ∧ "u2" ≠ NoteDoc.owner doc
  ∧ isUserAuthorized (NoteDoc.view doc) "u2" read = true
  ∧ isUserAuthorized (NoteDoc.view after) "u2" read = false.
Proof.
  intros doc after.
  assert (removeCollaborator true true (Some doc) "u1" "u2" = Done after) as Hr
    by (vm_compute; reflexivity).
  assert ("u2" ≠ NoteDoc.owner doc) as Hne by (vm_compute; discriminate).
  destruct (removeCollaborator_revokes_access true true doc after "u1" "u2" Hr)
    as (Hrevoke & _).
  split; [exact Hr|]. split; [exact Hne|]. split; [vm_compute; reflexivity|].
  exact (Hrevoke Hne read).
Defined.

(** X10.  Both controllers keep the collaborators list free of
    duplicate users: adding a user who is listed changes no length,
    adding one who is not appends one entry, and removing keeps what
    is left in order. *)
Theorem collaborators_stay_unique (idValid collaboratorIdValid : bool)
        (note : NoteDoc.t) (userId user : string) (role : option Role) :
  NoDup (map ICollaborator.user (NoteDoc.collaborators note)) →
  (∀ after, addCollaborator idValid (Some note) userId (Some user) role = Done after →
     NoDup (map ICollaborator.user (NoteDoc.collaborators after))
     ∧ length (NoteDoc.collaborators after)
       = if decide (user ∈ map ICollaborator.user (NoteDoc.collaborators note))
         then length (NoteDoc.collaborators note)
         else S (length (NoteDoc.collaborators note)))
  ∧ (∀ after, removeCollaborator idValid collaboratorIdValid (Some note) userId user = Done after →
       NoDup (map ICollaborator.user (NoteDoc.collaborators after))).
Proof.
  intros Hnd. split.
  - intros after Hdone. apply addCollaborator_Done in Hdone as [_ ->]. simpl.
    pose proof (users_upsertCollaborator user (default read role) (NoteDoc.collaborators note))
      as Hu.
    split.
    + rewrite Hu. case_decide as Hin; [done|].
      apply NoDup_app. split; [done|]. split; [|apply NoDup_singleton].
      intros x Hx Hx'. apply list_elem_of_singleton in Hx'. by subst.
    + apply (f_equal length) in Hu. rewrite length_map in Hu. rewrite Hu.
      case_decide; [by rewrite length_map|]. rewrite length_app, length_map. simpl. lia.
  - intros after Hdone. apply removeCollaborator_Done in Hdone as [_ ->]. simpl.
    induction (NoteDoc.collaborators note) as [|x cs IH]; [done|].
    simpl in Hnd. apply NoDup_cons in Hnd as [Hx Hnd].
    destruct (decide (ICollaborator.user x = user)) as [Hxu|Hxu].
    + rewrite filter_cons_False by (intros Hne; by apply Hne). by apply IH.
    + rewrite filter_cons_True by done. simpl. apply NoDup_cons. split; [|by apply IH].
      intros Hin. apply Hx.
      apply list_elem_of_In, in_map_iff in Hin as (y & Hy & Hin).
      apply list_elem_of_In, list_elem_of_filter in Hin as [_ Hin].
      rewrite <- Hy. apply list_elem_of_In, in_map, list_elem_of_In, Hin.
Qed.

Lemma collaborators_stay_unique_witness :
  let doc := NoteDoc.mk "plan" "draft" "u1" [ICollaborator.mk "u2" write] [] in
  let after := NoteDoc.mk "plan" "draft" "u1"
                 [ICollaborator.mk "u2" write; ICollaborator.mk "u3" read] [] in
  NoDup (map ICollaborator.user (NoteDoc.collaborators doc))
  ∧ addCollaborator true (Some doc) "u1" (Some "u3") (Some read) = Done after
  ∧ NoDup (map ICollaborator.user (NoteDoc.collaborators after)).
Proof.
  intros doc after.
  assert (NoDup (map ICollaborator.user (NoteDoc.collaborators doc))) as Hnd
    by (apply (bool_decide_unpack _); vm_compute; exact I).
  assert (addCollaborator true (Some doc) "u1" (Some "u3") (Some read) = Done after) as Ha
    by (vm_compute; reflexivity).
  destruct (collaborators_stay_unique true true doc "u1" "u3" (Some read) Hnd) as [Hadd _].
  destruct (Hadd after Ha) as [Hnd' _].
  split; [exact Hnd|]. split; [exact Ha|exact Hnd'].
Defined.

(** X11.  Removing a collaborator undoes adding that user: after
    [addCollaborator] then [removeCollaborator] for the same user the
    list is the original one without that user's entries, so a user
    who was not listed before leaves the note exactly as it was. *)
Theorem remove_undoes_add (idValid collaboratorIdValid : bool)
        (note added removed : NoteDoc.t) (userId user : string) (role : option Role) :
  addCollaborator idValid (Some note) userId (Some user) role = Done added →
  removeCollaborator idValid collaboratorIdValid (Some added) userId user = Done removed →
  (NoteDoc.collaborators removed
   = filter (λ c, ICollaborator.user c ≠ user) (NoteDoc.collaborators note))
  ∧ (user ∉ map ICollaborator.user (NoteDoc.collaborators note) → removed = note).
Proof.
  intros Ha Hr. apply addCollaborator_Done in Ha as [_ ->].
  apply removeCollaborator_Done in Hr as [_ ->]. simpl.
  rewrite filter_upsertCollaborator. split; [done|].
  intros Hnot. destruct note as [t c o cs vs]. simpl in *. f_equal.
  apply filter_all, Forall_forall. intros x Hx Heq. apply Hnot.
  rewrite <- Heq. apply list_elem_of_In, in_map, list_elem_of_In, Hx.
Qed.

Lemma remove_undoes_add_witness :
  let doc := NoteDoc.mk "plan" "draft" "u1" [ICollaborator.mk "u2" write] [] in
  let added := NoteDoc.mk "plan" "draft" "u1"
                 [ICollaborator.mk "u2" write; ICollaborator.mk "u3" read] [] in
  addCollaborator true (Some doc) "u1" (Some "u3") None = Done added
  ∧ removeCollaborator true true (Some added) "u1" "u3" = Done doc
  ∧ ("u3" ∉ map ICollaborator.user (NoteDoc.collaborators doc))
  ∧ (NoteDoc.collaborators doc
     = filter (λ c, ICollaborator.user c ≠ "u3") (NoteDoc.collaborators doc)).
Proof.
  intros doc added.
  assert (addCollaborator true (Some doc) "u1" (Some "u3") None = Done added) as Ha
    by (vm_compute; reflexivity).
  assert (removeCollaborator true true (Some added) "u1" "u3" = Done doc) as Hr
    by (vm_compute; reflexivity).
  assert ("u3" ∉ map ICollaborator.user (NoteDoc.collaborators doc)) as Hnot
    by (apply (bool_decide_unpack _); vm_compute; exact I).
  destruct (remove_undoes_add true true doc added doc "u1" "u3" None Ha Hr) as [Hleft _].
  split; [exact Ha|]. split; [exact Hr|]. split; [exact Hnot|]. exact Hleft.
Defined.

(** ** The HTTP authentication middleware *)

Lemma split_space_nonempty s : split_space s ≠ [].
Proof.
  destruct s as [|c s]; simpl; [done|].
  case_bool_decide; [done|]. by destruct (split_space s).
Qed.

Lemma split_space_whole s : includesSpace s = false → split_space s = [s].
Proof.
  induction s as [|c s IH]; simpl; [done|].
  case_bool_decide; simpl; [done|]. intros Hs. by rewrite IH.
Qed.

Lemma split_space_first w rest :
  includesSpace w = false → split_space (w +:+ " " +:+ rest) = w :: split_space rest.
Proof.
  induction w as [|c w IH]; intros Hw.
  - rewrite append_nil, append_cons, append_nil. simpl. done.
  - rewrite append_cons. simpl in *.
    case_bool_decide; simpl in *; [done|]. by rewrite IH.
Qed.

Lemma append_not_empty w rest : w +:+ " " +:+ rest ≠ EmptyString.
Proof. destruct w; [by rewrite append_nil, append_cons|by rewrite append_cons]. Qed.

(** X12.  [authenticateToken] takes the second space-separated piece of
    the header as the token and never looks at the first: with any
    word in front, a token that [jwt.verify] accepts lets the request
    through with the decoded payload as [req.user], and one it refuses
    is answered 403. *)
Theorem authenticateToken_ignores_the_scheme (verify : string → option AuthPayload.t)
        (scheme token : string) :
  includesSpace scheme = false → includesSpace token = false → token ≠ EmptyString →
  authenticateToken verify (Some (scheme +:+ " " +:+ token)) =
  match verify token with
  | Some decoded => Next (Some decoded)
  | None => Responded 403 "Invalid or expired token"
  end.
Proof.
  intros Hs Ht Hne. unfold authenticateToken, bearerToken.
  rewrite bool_decide_eq_false_2 by apply append_not_empty.
  rewrite split_space_first, split_space_whole by done. simpl.
  by rewrite bool_decide_eq_false_2.
Qed.

Lemma authenticateToken_ignores_the_scheme_witness :
  let verify := λ t : string, if bool_decide (t = "good") then Some alice else None in
  includesSpace "Basic" = false ∧ includesSpace "good" = false ∧ "good" ≠ EmptyString
  ∧ authenticateToken verify (Some ("Basic" +:+ " " +:+ "good")) = Next (Some alice).
Proof.
  intros verify.
  assert (includesSpace "Basic" = false) as Hs by (vm_compute; reflexivity).
  assert (includesSpace "good" = false) as Ht by (vm_compute; reflexivity).
  assert ("good" ≠ EmptyString) as Hne by discriminate.
  split; [exact Hs|]. split; [exact Ht|]. split; [exact Hne|].
  exact (authenticateToken_ignores_the_scheme verify "Basic" "good" Hs Ht Hne).
Defined.

(** X13.  Without a second piece there is no token: a missing header, a
    header without a space, and a header that ends right after its
    first space are all answered 401, whatever [jwt.verify] would
    say. *)
Theorem authenticateToken_requires_a_second_piece (verify : string → option AuthPayload.t) :
  authenticateToken verify None = Responded 401 "Access token required"
  ∧ (∀ header, includesSpace header = false →
       authenticateToken verify (Some header) = Responded 401 "Access token required")
  ∧ (∀ scheme, includesSpace scheme = false →
       authenticateToken verify (Some (scheme +:+ " " +:+ EmptyString))
       = Responded 401 "Access token required").
Proof.
  split; [done|]. split.
  - intros header Hh. unfold authenticateToken, bearerToken.
    case_bool_decide as He; [subst; done|].
    by rewrite split_space_whole.
  - intros scheme Hs. unfold authenticateToken, bearerToken.
    rewrite bool_decide_eq_false_2 by apply append_not_empty.
    by rewrite split_space_first.
Qed.

Lemma authenticateToken_requires_a_second_piece_witness :
  let verify := λ t : string, Some alice in
  includesSpace "good" = false
  ∧ authenticateToken verify (Some "good") = Responded 401 "Access token required"
  ∧ authenticateToken verify (Some ("Bearer" +:+ " " +:+ EmptyString))
    = Responded 401 "Access token required".
Proof.
  intros verify.
  assert (includesSpace "good" = false) as Hh by (vm_compute; reflexivity).
  assert (includesSpace "Bearer" = false) as Hs by (vm_compute; reflexivity).
  destruct (authenticateToken_requires_a_second_piece verify) as (_ & Hone & Htwo).
  split; [exact Hh|]. split; [exact (Hone "good" Hh)|exact (Htwo "Bearer" Hs)].
Defined.

(** X14.  [optionalAuth] never answers by itself: it always calls
    [next()], with the user [authenticateToken] would have let through
    for the same header, and with none where [authenticateToken] would
    have answered 401 or 403. *)
Theorem optionalAuth_follows_authenticateToken (verify : string → option AuthPayload.t)
        (authHeader : option string) :
  optionalAuth verify authHeader =
  Next (match authenticateToken verify authHeader with
        | Next user => user
        | Responded _ _ => None
        end).
Proof.
  unfold optionalAuth, authenticateToken.
  destruct (noToken (bearerToken authHeader)); [done|].
  by destruct (bearerToken authHeader ≫= verify).
Qed.

(** ** More on the socket listeners *)

Lemma currentRooms_filter sid room rooms :
  currentRooms sid (filter (λ r, r ≠ room) rooms)
  = filter (λ r, r ≠ room) (currentRooms sid rooms).
Proof.
  unfold currentRooms. induction rooms as [|x rooms IH]; [done|].
  destruct (decide (x = room)) as [Hx|Hx]; destruct (decide (x = sid)) as [Hs|Hs].
  - rewrite (filter_cons_False (λ r, r ≠ room)) by (intros Hne; by apply Hne).
    rewrite (filter_cons_False (λ r, r ≠ sid)) by (intros Hne; by apply Hne). done.
  - rewrite (filter_cons_False (λ r, r ≠ room)) by (intros Hne; by apply Hne).
    rewrite (filter_cons_True (λ r, r ≠ sid)) by done.
    rewrite (filter_cons_False (λ r, r ≠ room)) by (intros Hne; by apply Hne). done.
  - rewrite (filter_cons_True (λ r, r ≠ room)) by done.
    rewrite !(filter_cons_False (λ r, r ≠ sid)) by (intros Hne; by apply Hne). done.
  - rewrite (filter_cons_True (λ r, r ≠ room)) by done.
    rewrite !(filter_cons_True (λ r, r ≠ sid)) by done.
    rewrite (filter_cons_True (λ r, r ≠ room)) by done. by rewrite IH.
Qed.

(** What leaving a room does to the rooms of the sockets. *)
Lemma socket_leave_lookup sid room st s :
  sockets (socket_leave sid room st) !! s =
  if decide (s = sid)
  then (λ sk, Socket.mk (Socket.user sk) (filter (λ r, r ≠ room) (Socket.rooms sk)))
         <$> sockets st !! s
  else sockets st !! s.
Proof.
  unfold socket_leave. simpl. case_decide as Hs.
  - subst. by rewrite lookup_alter_eq.
  - by rewrite lookup_alter_ne.
Qed.

Lemma one_or_none_filter (room : string) (l : list string) :
  (l = [] ∨ ∃ n, l = [roomName n]) →
  (filter (λ r, r ≠ room) l = [] ∨ ∃ n, filter (λ r, r ≠ room) l = [roomName n]).
Proof.
  intros [->|[n ->]]; [by left|].
  destruct (decide (roomName n = room)) as [Hn|Hn].
  - left. by rewrite filter_cons_False by (intros Hne; by apply Hne).
  - right. exists n. by rewrite filter_cons_True.
Qed.

Lemma socket_leave_one_note sid room st :
  one_note_per_socket st → one_note_per_socket (socket_leave sid room st).
Proof.
  intros Hst s sk. rewrite socket_leave_lookup. case_decide as Hs; [|apply Hst].
  subst s. destruct (sockets st !! sid) as [sk0|] eqn:Hsk; [|done].
  intros [= <-]. simpl. rewrite currentRooms_filter.
  apply one_or_none_filter. by eapply Hst.
Qed.

Lemma one_note_per_socket_ext st st' :
  sockets st' = sockets st → one_note_per_socket st → one_note_per_socket st'.
Proof. unfold one_note_per_socket. by intros ->. Qed.

Lemma leaveRoom_one_note sid uid room st :
  one_note_per_socket st → one_note_per_socket (leaveRoom sid uid room st).1.
Proof.
  intros Hst. unfold leaveRoom. destruct (startsWith room "note:"); [|done].
  eapply one_note_per_socket_ext; [apply handleUserLeaveRoom_sockets|].
  by apply socket_leave_one_note.
Qed.

(** The rooms of the leaving socket after the loop of lines 46-53, when
    it was in at most one note room: none but its own is left. *)
Lemma leaveExistingRooms_rooms sid uid st sk :
  sockets st !! sid = Some sk →
  (currentRooms sid (Socket.rooms sk) = []
   ∨ ∃ n, currentRooms sid (Socket.rooms sk) = [roomName n]) →
  ∃ sk1, sockets (leaveExistingRooms sid uid (Socket.rooms sk) st).1 !! sid = Some sk1
         ∧ Socket.user sk1 = Socket.user sk
         ∧ currentRooms sid (Socket.rooms sk1) = [].
Proof.
  intros Hs Hone. unfold leaveExistingRooms.
  destruct Hone as [Hnil|[n Hn]].
  - rewrite Hnil. simpl. eauto.
  - rewrite Hn. simpl. unfold leaveRoom. rewrite startsWith_roomName.
    destruct (handleUserLeaveRoom _ uid (socket_leave sid (roomName n) st)) as [st1 out] eqn:Hh.
    simpl.
    assert (sockets st1 = sockets (socket_leave sid (roomName n) st)) as Hss.
    { replace st1 with (st1, out).1 by done. rewrite <- Hh.
      apply handleUserLeaveRoom_sockets. }
    rewrite Hss, socket_leave_lookup, decide_True, Hs by done. simpl.
    eexists. split; [done|]. split; [done|]. simpl.
    rewrite currentRooms_filter, Hn.
    by rewrite filter_cons_False by (intros Hne; by apply Hne).
Qed.

Lemma leaveExistingRooms_other sid uid rooms st s :
  s ≠ sid → sockets (leaveExistingRooms sid uid rooms st).1 !! s = sockets st !! s.
Proof.
  intros Hs. unfold leaveExistingRooms.
  apply (forEach_preserves (λ st', sockets st' !! s = sockets st !! s)); [|done].
  intros room st' Hst'. unfold leaveRoom. destruct (startsWith room "note:"); [|done].
  rewrite handleUserLeaveRoom_sockets, socket_leave_lookup. by rewrite decide_False.
Qed.

Lemma removeFromRoom_sockets uid room st :
  sockets (removeFromRoom uid room st).1 = sockets st.
Proof.
  unfold removeFromRoom. destruct (startsWith room "note:"); [|done].
  apply handleUserLeaveRoom_sockets.
Qed.

Lemma removeFromRoom_loop_sockets uid rooms st :
  sockets (forEach (removeFromRoom uid) rooms st).1 = sockets st.
Proof.
  apply (forEach_preserves (λ st', sockets st' = sockets st)); [|done].
  intros room st' Hst'. by rewrite removeFromRoom_sockets.
Qed.

Lemma handlers_one_note rooms_on_disconnect e st :
  one_note_per_socket st → one_note_per_socket (step rooms_on_disconnect e st).1.
Proof.
  intros Hst. destruct e as [s d|s n found|s n|s n c t found now|s n p sel|s]; simpl.
  - unfold connection. destruct d as [user|]; [|done]. simpl.
    intros s' sk. simpl. destruct (decide (s' = s)) as [->|Hs'].
    + rewrite lookup_insert_eq. intros [= <-]. left. simpl.
      unfold currentRooms. by rewrite filter_cons_False by (intros Hne; by apply Hne).
    + rewrite lookup_insert_ne by done. apply Hst.
  - destruct (sockets st !! s) as [sk|] eqn:Hs;
      [|unfold join_note; by rewrite Hs].
    destruct found as [note|]; [|unfold join_note; by rewrite Hs].
    destruct (denied note (AuthPayload.userId (Socket.user sk)) read) eqn:Hd;
      [unfold join_note; by rewrite Hs, Hd|].
    rewrite (join_note_granted_state s n note st sk Hs Hd).
    destruct (leaveExistingRooms_rooms s (AuthPayload.userId (Socket.user sk)) st sk Hs
                (Hst s sk Hs)) as (sk1 & Hs1 & _ & Hcur).
    intros s' sk'. unfold enterRoom, socket_join. simpl.
    destruct (decide (s' = s)) as [->|Hs'].
    + rewrite lookup_alter_eq, Hs1. simpl. intros [= <-]. simpl.
      case_decide as Hin; [by left|].
      unfold currentRooms in *. rewrite filter_app, Hcur. simpl.
      destruct (decide (roomName n = s)) as [Hn|Hn].
      * left. by rewrite filter_cons_False by (intros Hne; by apply Hne).
      * right. exists n. by rewrite filter_cons_True.
    + rewrite lookup_alter_ne by done. rewrite leaveExistingRooms_other by done. apply Hst.
  - unfold leave_note. destruct (sockets st !! s) as [sk|]; [|done].
    eapply one_note_per_socket_ext; [apply handleUserLeaveRoom_sockets|].
    by apply socket_leave_one_note.
  - unfold note_update. destruct (sockets st !! s) as [sk|]; [|done].
    destruct found as [note|]; [|done]. by destruct (denied note _ write).
  - unfold cursor_update. by destruct (sockets st !! s).
  - unfold disconnect. destruct (sockets st !! s) as [sk|]; [|done].
    destruct (forEach _ _ st) as [st1 out] eqn:Hloop. simpl.
    assert (sockets st1 = sockets st) as Hss.
    { replace st1 with (st1, out).1 by done. rewrite <- Hloop.
      apply removeFromRoom_loop_sockets. }
    intros s' sk'. simpl. rewrite Hss.
    destruct (decide (s' = s)) as [->|Hs'].
    + by rewrite lookup_delete_eq.
    + rewrite lookup_delete_ne by done. apply Hst.
Qed.

(** X15.  After any history a connected socket is, apart from the room
    that carries its own id, in no room or in the room of exactly one
    note: it never occupies two notes at once. *)
Theorem a_socket_occupies_at_most_one_note (rooms_on_disconnect : list string → list string)
        (es : list Event) :
  one_note_per_socket (run rooms_on_disconnect es).1
  ∧ ∀ socketId sk n m,
      sockets (run rooms_on_disconnect es).1 !! socketId = Some sk →
      roomName n ∈ Socket.rooms sk → roomName m ∈ Socket.rooms sk →
      roomName n ≠ socketId → roomName m ≠ socketId → n = m.
Proof.
  assert (one_note_per_socket (run rooms_on_disconnect es).1) as Hinv.
  { unfold run. apply forEach_preserves.
    - intros e st. apply handlers_one_note.
    - intros s sk Hs. unfold initial in Hs. simpl in Hs. by rewrite lookup_empty in Hs. }
  split; [exact Hinv|].
  intros s sk n m Hs Hn Hm Hns Hms.
  assert (roomName n ∈ currentRooms s (Socket.rooms sk)) as Hn'
    by (unfold currentRooms; by apply list_elem_of_filter).
  assert (roomName m ∈ currentRooms s (Socket.rooms sk)) as Hm'
    by (unfold currentRooms; by apply list_elem_of_filter).
  destruct (Hinv s sk Hs) as [Hnil|[k Hk]].
  - rewrite Hnil in Hn'. by apply elem_of_nil in Hn'.
  - rewrite Hk in Hn', Hm'.
    apply list_elem_of_singleton in Hn', Hm'.
    apply roomName_inj. congruence.
Qed.

(** alice opens the first note and then the second: her socket is left
    in the room of the second note only. *)
Lemma a_socket_occupies_at_most_one_note_witness :
  let es := both_in_n1 ++ [on_join_note "s1" "n2" (Resolved (Some note2))] in
  sockets (run rooms_kept es).1 !! "s1" = Some (Socket.mk alice ["s1"; "note:n2"])
  ∧ roomName "n2" ∈ ["s1"; "note:n2"]
  ∧ roomName "n2" ≠ "s1"
  ∧ one_note_per_socket (run rooms_kept es).1.
Proof.
  intros es.
  assert (sockets (run rooms_kept es).1 !! "s1" = Some (Socket.mk alice ["s1"; "note:n2"]))
    as Hs by (vm_compute; reflexivity).
  assert (roomName "n2" ∈ ["s1"; "note:n2"]) as Hin
    by (apply (bool_decide_unpack _); vm_compute; exact I).
  assert (roomName "n2" ≠ "s1") as Hne by (vm_compute; discriminate).
  destruct (a_socket_occupies_at_most_one_note rooms_kept es) as [Hinv Hsame].
  pose proof (Hsame "s1" _ "n2" "n2" Hs Hin Hin Hne Hne) as _.
  split; [exact Hs|]. split; [exact Hin|]. split; [exact Hne|exact Hinv].
Defined.

(** *** Who can appear in a roster *)

Lemma userIds_filter_incl (P : SocketUser.t → Prop) `{∀ x, Decision (P x)} u l :
  u ∈ map SocketUser.userId (filter P l) → u ∈ map SocketUser.userId l.
Proof.
  intros Hin. apply list_elem_of_In, in_map_iff in Hin as (x & Hx & Hin).
  apply list_elem_of_In, list_elem_of_filter in Hin as [_ Hin].
  rewrite <- Hx. apply list_elem_of_In, in_map, list_elem_of_In, Hin.
Qed.

Lemma userIds_upsertEntry user sid l u :
  u ∈ map SocketUser.userId (upsertEntry user sid l) →
  u = AuthPayload.userId user ∨ u ∈ map SocketUser.userId l.
Proof.
  unfold upsertEntry. destruct (list_find _ l) as [[i x]|].
  - rewrite userIds_alter_socketId. by right.
  - rewrite map_app. simpl. rewrite elem_of_app, list_elem_of_singleton. tauto.
Qed.

Lemma handleUserLeaveRoom_member n uid st u m :
  member u m (handleUserLeaveRoom n uid st).1 → member u m st.
Proof.
  unfold member. rewrite handleUserLeaveRoom_users. case_decide; [|done].
  apply userIds_filter_incl.
Qed.

Lemma removeFromRoom_member uid room st u m :
  member u m (removeFromRoom uid room st).1 → member u m st.
Proof.
  unfold removeFromRoom. destruct (startsWith room "note:"); [|done].
  apply handleUserLeaveRoom_member.
Qed.

Lemma handlers_member rooms_on_disconnect e st u n :
  member u n (step rooms_on_disconnect e st).1 →
  member u n st
  ∨ ∃ s note, e = on_join_note s n (Resolved (Some note))
              ∧ isUserAuthorized note u read = true.
Proof.
  destruct e as [s d|s n' found|s n'|s n' c t found now|s n' p sel|s]; simpl.
  - unfold connection. destruct d; by left.
  - destruct (sockets st !! s) as [sk|] eqn:Hs;
      [|unfold join_note; rewrite Hs; by left].
    destruct found as [note|]; [|unfold join_note; rewrite Hs; by left].
    destruct (denied note (AuthPayload.userId (Socket.user sk)) read) eqn:Hd;
      [unfold join_note; rewrite Hs, Hd; by left|].
    rewrite (join_note_granted_state s n' note st sk Hs Hd).
    unfold member. rewrite enterRoom_users.
    assert (∀ m, u ∈ map SocketUser.userId
                   (getActiveUsersInNote m
                      (leaveExistingRooms s (AuthPayload.userId (Socket.user sk))
                         (Socket.rooms sk) st).1) →
                 u ∈ map SocketUser.userId (getActiveUsersInNote m st)) as Hleft.
    { intros m. rewrite leaveExistingRooms_users. case_decide; [|done].
      apply userIds_filter_incl. }
    case_decide as Hn.
    + subst n'. intros Hin. apply userIds_upsertEntry in Hin as [->|Hin].
      * right. destruct note as [note|]; [|done]. simpl in Hd.
        exists s, note. split; [done|]. by destruct (isUserAuthorized note _ read).
      * left. by apply Hleft.
    + intros Hin. left. by apply Hleft.
  - unfold leave_note. destruct (sockets st !! s) as [sk|]; [|by left].
    intros Hin. left. by apply handleUserLeaveRoom_member in Hin.
  - unfold note_update. destruct (sockets st !! s) as [sk|]; [|by left].
    destruct found as [note|]; [|by left]. destruct (denied note _ write); by left.
  - unfold cursor_update. destruct (sockets st !! s); by left.
  - unfold disconnect. destruct (sockets st !! s) as [sk|]; [|by left].
    destruct (forEach _ _ st) as [st1 out] eqn:Hloop. simpl.
    intros Hin. left.
    assert (member u n st1 → member u n st) as Hmono.
    { replace st1 with (st1, out).1 by done. rewrite <- Hloop.
      apply (forEach_preserves (λ st', member u n st' → member u n st)); [|done].
      intros room st' Hst' Hm. apply Hst'. by apply removeFromRoom_member in Hm. }
    by apply Hmono.
Qed.

Lemma history_member rooms_on_disconnect u n es :
  ∀ st, member u n (forEach (step rooms_on_disconnect) es st).1 →
    member u n st
    ∨ ∃ s note, on_join_note s n (Resolved (Some note)) ∈ es
                ∧ isUserAuthorized note u read = true.
Proof.
  induction es as [|e es IH]; intros st; [by left|].
  rewrite forEach_cons_fst. intros Hm.
  apply IH in Hm as [Hm|(s & note & Hin & Hauth)].
  - apply handlers_member in Hm as [Hm|(s & note & -> & Hauth)]; [by left|].
    right. exists s, note. split; [apply list_elem_of_here|done].
  - right. exists s, note. split; [by apply list_elem_of_further|done].
Qed.

(** X16.  Nobody is in a roster without having been let in: if after
    some history a user has an entry in the room of a note, then the
    history holds a [join-note] for that note whose lookup found a
    note on which that user passed the read check. *)
Theorem roster_entries_come_from_granted_joins
        (rooms_on_disconnect : list string → list string) (es : list Event)
        (userId noteId : string) :
  member userId noteId (run rooms_on_disconnect es).1 →
  ∃ socketId note,
    on_join_note socketId noteId (Resolved (Some note)) ∈ es
    ∧ isUserAuthorized note userId read = true.
Proof.
  intros Hm. apply history_member in Hm as [Hm|Hm]; [|done].
  unfold member, getActiveUsersInNote, initial in Hm. simpl in Hm.
  rewrite lookup_empty in Hm. by apply elem_of_nil in Hm.
Qed.

Lemma roster_entries_come_from_granted_joins_witness :
  member "u2" "n1" (run rooms_kept both_in_n1).1
  ∧ ∃ socketId note,
      on_join_note socketId "n1" (Resolved (Some note)) ∈ both_in_n1
      ∧ isUserAuthorized note "u2" read = true.
Proof.
  assert (member "u2" "n1" (run rooms_kept both_in_n1).1) as Hm
    by (apply (bool_decide_unpack _); vm_compute; exact I).
  split; [exact Hm|].
  exact (roster_entries_come_from_granted_joins rooms_kept both_in_n1 "u2" "n1" Hm).
Defined.

(** *** What the listeners emit *)

Lemma handleUserLeaveRoom_departure n uid st :
  Forall departure (handleUserLeaveRoom n uid st).2.
Proof.
  rewrite handleUserLeaveRoom_out. simpl.
  destruct (filter _ (getActiveUsersInNote n st)) as [|x rest] eqn:Hf; [by apply Forall_nil|].
  apply Forall_cons. split; [|by apply Forall_nil].
  exists n, uid, (x :: rest). repeat split; [done|].
  rewrite <- Hf. apply userIds_filter.
Qed.

Lemma leaveExistingRooms_departure sid uid rooms st :
  Forall departure (leaveExistingRooms sid uid rooms st).2.
Proof.
  apply forEach_out_Forall. intros room s. unfold leaveRoom.
  destruct (startsWith room "note:"); [|by apply Forall_nil].
  apply handleUserLeaveRoom_departure.
Qed.

Lemma removeFromRoom_loop_departure uid rooms st :
  Forall departure (forEach (removeFromRoom uid) rooms st).2.
Proof.
  apply forEach_out_Forall. intros room s. unfold removeFromRoom.
  destruct (startsWith room "note:"); [|by apply Forall_nil].
  apply handleUserLeaveRoom_departure.
Qed.

(** Every emission of a listener is of one of five kinds. *)
Lemma handlers_emit rooms_on_disconnect e st em :
  em ∈ (step rooms_on_disconnect e st).2 →
  departure em
  ∨ (∃ s msg, step rooms_on_disconnect e st = (st, [socket_emit s (error msg)])
              ∧ em = socket_emit s (error msg))
  ∨ (∃ user n roster, payload em = user_joined user roster ∨ payload em = joined_note n roster)
  ∨ (∃ s n c t note now sk,
       e = on_note_update s n c t (Resolved (Some note)) now
       ∧ sockets st !! s = Some sk
       ∧ isUserAuthorized note (AuthPayload.userId (Socket.user sk)) write = true
       ∧ em = socket_to st s (roomName n) (note_updated n c t (userOf (Socket.user sk)) now))
  ∨ (∃ user p sel, payload em = cursor_updated user p sel).
Proof.
  destruct e as [s d|s n found|s n|s n c t found now|s n p sel|s]; simpl.
  - unfold connection. destruct d; simpl; intros Hin; by apply elem_of_nil in Hin.
  - destruct (sockets st !! s) as [sk|] eqn:Hs;
      [|unfold join_note; rewrite Hs; simpl; intros Hin; by apply elem_of_nil in Hin].
    destruct found as [note|].
    + destruct (denied note (AuthPayload.userId (Socket.user sk)) read) eqn:Hd.
      * unfold join_note. rewrite Hs, Hd. simpl. intros Hin.
        apply list_elem_of_singleton in Hin. right. left. eauto.
      * rewrite (join_note_granted_out s n note st sk Hs Hd). intros Hin.
        apply elem_of_app in Hin as [Hin|Hin].
        -- left. revert Hin. apply Forall_forall, leaveExistingRooms_departure.
        -- right. right. left. unfold enterRoom in Hin. simpl in Hin.
           apply elem_of_cons in Hin as [->|Hin].
           ++ eexists _, n, _. left. simpl. reflexivity.
           ++ apply list_elem_of_singleton in Hin as ->.
              exists (userOf (Socket.user sk)), n. eexists. right. simpl. reflexivity.
    + unfold join_note. rewrite Hs. simpl. intros Hin.
      apply list_elem_of_singleton in Hin. right. left. eauto.
  - unfold leave_note. destruct (sockets st !! s) as [sk|];
      [|simpl; intros Hin; by apply elem_of_nil in Hin].
    intros Hin. left. revert Hin. apply Forall_forall, handleUserLeaveRoom_departure.
  - unfold note_update. destruct (sockets st !! s) as [sk|] eqn:Hs;
      [|simpl; intros Hin; by apply elem_of_nil in Hin].
    destruct found as [note|].
    + destruct (denied note (AuthPayload.userId (Socket.user sk)) write) eqn:Hd; simpl.
      * intros Hin. apply list_elem_of_singleton in Hin. right. left. eauto.
      * intros Hin. apply list_elem_of_singleton in Hin. do 3 right. left.
        destruct note as [note|]; [|done]. simpl in Hd.
        exists s, n, c, t, note, now, sk. repeat split; try done.
        by destruct (isUserAuthorized note _ write).
    + simpl. intros Hin. apply list_elem_of_singleton in Hin. right. left. eauto.
  - unfold cursor_update. destruct (sockets st !! s) as [sk|];
      [|simpl; intros Hin; by apply elem_of_nil in Hin].
    simpl. intros Hin. apply list_elem_of_singleton in Hin as ->. do 4 right. simpl. eauto.
  - unfold disconnect. destruct (sockets st !! s) as [sk|];
      [|simpl; intros Hin; by apply elem_of_nil in Hin].
    destruct (forEach _ _ st) as [st1 out] eqn:Hloop. simpl. intros Hin. left.
    revert Hin. apply Forall_forall. replace out with (st1, out).2 by done.
    rewrite <- Hloop. apply removeFromRoom_loop_departure.
Qed.

Lemma departure_payload em :
  departure em → ∃ uid rest, payload em = user_left uid (activeUsers rest).
Proof. intros (n & uid & rest & _ & Hp & _). eauto. Qed.

(** X17.  A [note-updated] is only ever emitted by the [note-update]
    listener, for a sender who passed the write check on the note that
    was found: it repeats the sender's note id, content and title,
    names the sender as [modifiedBy], is addressed to the room of that
    note without the sender, and the sender is not among its
    recipients. *)
Theorem note_updated_needs_write_access (rooms_on_disconnect : list string → list string)
        (e : Event) (st : State) (em : Emission)
        (noteId content : string) (title : option string) (modifiedBy : ActiveUser.t)
        (timestamp : Z) :
  em ∈ (step rooms_on_disconnect e st).2 →
  payload em = note_updated noteId content title modifiedBy timestamp →
  ∃ socketId note sk,
    e = on_note_update socketId noteId content title (Resolved (Some note)) timestamp
    ∧ sockets st !! socketId = Some sk
    ∧ isUserAuthorized note (AuthPayload.userId (Socket.user sk)) write = true
    ∧ modifiedBy = userOf (Socket.user sk)
    ∧ target em = ToRoomExcept (roomName noteId) socketId
    ∧ socketId ∉ recipients em.
Proof.
  intros Hin Hp. apply handlers_emit in Hin
    as [Hdep|[(s & msg & _ & ->)|[(u & n & r & [Hj|Hj])|[Hup|(u & p & sel & Hc)]]]];
    try (simpl in *; congruence).
  - apply departure_payload in Hdep as (uid & rest & Hl). congruence.
  - destruct Hup as (s & n & c & t & note & now & sk & -> & Hs & Hauth & ->).
    simpl in Hp. injection Hp as -> -> -> <- ->.
    exists s, note, sk. repeat split; try done.
    simpl. rewrite elem_of_difference, elem_of_singleton. tauto.
Qed.

(** bob, a writing collaborator in the first note, sends an update. *)
Lemma note_updated_needs_write_access_witness :
  let st := (run rooms_kept both_in_n1).1 in
  let e := on_note_update "s2" "n1" "text" None (Resolved (Some note1)) 4 in
  let em := mkEmission (ToRoomExcept "note:n1" "s2") {[ "s1" ]}
                       (note_updated "n1" "text" None (ActiveUser.mk "u2" "bob") 4) in
  em ∈ (step rooms_kept e st).2
  ∧ ∃ socketId note sk,
      e = on_note_update socketId "n1" "text" None (Resolved (Some note)) 4
      ∧ sockets st !! socketId = Some sk
      ∧ isUserAuthorized note (AuthPayload.userId (Socket.user sk)) write = true
      ∧ ActiveUser.mk "u2" "bob" = userOf (Socket.user sk)
      ∧ target em = ToRoomExcept (roomName "n1") socketId
      ∧ socketId ∉ recipients em.
Proof.
  intros st e em.
  assert (em ∈ (step rooms_kept e st).2) as Hin
    by (apply (bool_decide_unpack _); vm_compute; exact I).
  split; [exact Hin|].
  exact (note_updated_needs_write_access rooms_kept e st em "n1" "text" None
           (ActiveUser.mk "u2" "bob") 4%Z Hin eq_refl).
Defined.

(** X18.  Every [user-left] a listener emits is sent with [io.to] to the
    room of a note, and its roster is never empty and never lists the
    user it reports as gone. *)
Theorem user_left_never_lists_the_leaver (rooms_on_disconnect : list string → list string)
        (e : Event) (st : State) (em : Emission) (userId : string)
        (roster : list ActiveUser.t) :
  em ∈ (step rooms_on_disconnect e st).2 →
  payload em = user_left userId roster →
  (∃ noteId, target em = ToRoom (roomName noteId))
  ∧ roster ≠ []
  ∧ userId ∉ map ActiveUser.userId roster.
Proof.
  intros Hin Hp. apply handlers_emit in Hin
    as [Hdep|[(s & msg & _ & ->)|[(u & n & r & [Hj|Hj])|[Hup|(u & p & sel & Hc)]]]];
    try (simpl in *; congruence).
  - destruct Hdep as (n & uid & rest & Ht & Hl & Hne & Hnot).
    rewrite Hl in Hp. injection Hp as -> <-.
    split; [eauto|]. split.
    + by destruct rest.
    + unfold activeUsers. rewrite map_map. simpl. exact Hnot.
  - destruct Hup as (s & n & c & t & note & now & sk & _ & _ & _ & ->). simpl in Hp. congruence.
Qed.

(** alice leaves the first note, where bob stays. *)
Lemma user_left_never_lists_the_leaver_witness :
  let st := (run rooms_kept both_in_n1).1 in
  let em := mkEmission (ToRoom "note:n1") {[ "s2" ]}
                       (user_left "u1" [ActiveUser.mk "u2" "bob"]) in
  em ∈ (step rooms_kept (on_leave_note "s1" "n1") st).2
  ∧ (∃ noteId, target em = ToRoom (roomName noteId))
  ∧ [ActiveUser.mk "u2" "bob"] ≠ []
  ∧ "u1" ∉ map ActiveUser.userId [ActiveUser.mk "u2" "bob"].
Proof.
  intros st em.
  assert (em ∈ (step rooms_kept (on_leave_note "s1" "n1") st).2) as Hin
    by (apply (bool_decide_unpack _); vm_compute; exact I).
  split; [exact Hin|].
  exact (user_left_never_lists_the_leaver rooms_kept _ st em "u1" _ Hin eq_refl).
Defined.

(** X19.  An [error] is never broadcast and never comes with a change:
    a listener that emits one has emitted nothing else, has addressed
    it with [socket.emit] to one socket alone, and has left every
    table as it was. *)
Theorem errors_are_private_and_change_nothing
        (rooms_on_disconnect : list string → list string)
        (e : Event) (st : State) (em : Emission) (msg : string) :
  em ∈ (step rooms_on_disconnect e st).2 →
  payload em = error msg →
  ∃ socketId,
    step rooms_on_disconnect e st
    = (st, [mkEmission (ToSocket socketId) {[ socketId ]} (error msg)]).
Proof.
  intros Hin Hp. apply handlers_emit in Hin
    as [Hdep|[(s & m & Hstep & ->)|[(u & n & r & [Hj|Hj])|[Hup|(u & p & sel & Hc)]]]];
    try (simpl in *; congruence).
  - apply departure_payload in Hdep as (uid & rest & Hl). congruence.
  - simpl in Hp. injection Hp as ->. exists s. exact Hstep.
  - destruct Hup as (s & n & c & t & note & now & sk & _ & _ & _ & ->). simpl in Hp. congruence.
Qed.

(** carol is refused the first note. *)
Lemma errors_are_private_and_change_nothing_witness :
  let st := (run rooms_kept (both_in_n1 ++ [on_connection "s3" (Some carol)])).1 in
  let e := on_join_note "s3" "n1" (Resolved (Some note1)) in
  let em := mkEmission (ToSocket "s3") {[ "s3" ]} (error "Access denied to this note") in
  em ∈ (step rooms_kept e st).2
  ∧ ∃ socketId,
      step rooms_kept e st
      = (st, [mkEmission (ToSocket socketId) {[ socketId ]} (error "Access denied to this note")]).
Proof.
  intros st e em.
  assert (em ∈ (step rooms_kept e st).2) as Hin
    by (apply (bool_decide_unpack _); vm_compute; exact I).
  split; [exact Hin|].
  exact (errors_are_private_and_change_nothing rooms_kept e st em _ Hin eq_refl).
Defined.

(** *** Disconnecting *)

Lemma removeFromRoom_users uid m room st :
  getActiveUsersInNote m (removeFromRoom uid room st).1 =
  if decide (room = roomName m)
  then filter (λ u, SocketUser.userId u ≠ uid) (getActiveUsersInNote m st)
  else getActiveUsersInNote m st.
Proof.
  unfold removeFromRoom. destruct (startsWith room "note:") eqn:Hp.
  - rewrite handleUserLeaveRoom_users.
    pose proof (replace_eq_iff room m Hp) as Hiff.
    destruct (decide (m = replace "note:" EmptyString room)) as [Hm|Hm];
      destruct (decide (room = roomName m)) as [Hr|Hr]; try done.
    + exfalso. apply Hr, Hiff. done.
    + exfalso. apply Hm. symmetry. by apply Hiff.
  - simpl. case_decide as Hr; [|done].
    subst room. by rewrite startsWith_roomName in Hp.
Qed.

Lemma removeFromRoom_loop_userSockets uid rooms st :
  userSockets (forEach (removeFromRoom uid) rooms st).1 = userSockets st.
Proof.
  apply (forEach_preserves (λ st', userSockets st' = userSockets st)); [|done].
  intros room st' Hst'. unfold removeFromRoom. destruct (startsWith room "note:"); [|done].
  by rewrite handleUserLeaveRoom_userSockets.
Qed.

Lemma removeFromRoom_loop_none uid rooms st :
  Forall (λ room, startsWith room "note:" = false) rooms →
  forEach (removeFromRoom uid) rooms st = (st, []).
Proof.
  induction 1 as [|room rooms Hroom _ IH]; [done|].
  simpl. unfold removeFromRoom at 1. rewrite Hroom. by rewrite IH.
Qed.

(** X20.  What [disconnect] does.  The socket is gone, the user's key is
    deleted from [userSockets], and the user's entries are removed
    from the rooms of exactly those notes whose room the listener
    still finds in [socket.rooms]; every other roster is as before.
    All it emits are departure notices. *)
Theorem disconnect_cleans_the_rooms_it_sees (rooms_on_disconnect : list string → list string)
        (socketId : string) (sk : Socket.t) (st : State) :
  sockets st !! socketId = Some sk →
  let userId := AuthPayload.userId (Socket.user sk) in
  let seen := currentRooms socketId (rooms_on_disconnect (Socket.rooms sk)) in
  let result := disconnect rooms_on_disconnect socketId st in
  sockets result.1 = delete socketId (sockets st)
  ∧ userSockets result.1 = delete userId (userSockets st)
  ∧ (∀ noteId,
       getActiveUsersInNote noteId result.1 =
       if decide (roomName noteId ∈ seen)
       then filter (λ u, SocketUser.userId u ≠ userId) (getActiveUsersInNote noteId st)
       else getActiveUsersInNote noteId st)
  ∧ Forall departure result.2.
Proof.
  intros Hs userId seen result. subst result. unfold disconnect. rewrite Hs.
  fold userId. fold seen.
  pose proof (removeFromRoom_loop_sockets userId seen st) as Hss.
  pose proof (removeFromRoom_loop_userSockets userId seen st) as Hus.
  pose proof (removeFromRoom_loop_departure userId seen st) as Hout.
  pose proof (λ m, forEach_view (getActiveUsersInNote m)
                     (filter (λ u, SocketUser.userId u ≠ userId))
                     (removeFromRoom userId) (roomName m)
                     (λ l, filter_idemp _ l)
                     (λ room s, removeFromRoom_users userId m room s) seen st) as Husers.
  destruct (forEach (removeFromRoom userId) seen st) as [st1 out]. simpl in *.
  split; [by rewrite Hss|]. split; [by rewrite Hus|]. split; [|done].
  intros m. apply Husers.
Qed.

(** alice (s1) and bob (s2) are in the first note when alice's socket
    closes with its rooms still listed. *)
Lemma disconnect_cleans_the_rooms_it_sees_witness :
  let st := (run rooms_kept both_in_n1).1 in
  let result := disconnect rooms_kept "s1" st in
  sockets st !! "s1" = Some (Socket.mk alice ["s1"; "note:n1"])
  ∧ sockets result.1 = delete "s1" (sockets st)
  ∧ getActiveUsersInNote "n1" result.1
    = (if decide (roomName "n1" ∈ currentRooms "s1" (rooms_kept ["s1"; "note:n1"]))
       then filter (λ u, SocketUser.userId u ≠ "u1") (getActiveUsersInNote "n1" st)
       else getActiveUsersInNote "n1" st).
Proof.
  intros st result.
  assert (sockets st !! "s1" = Some (Socket.mk alice ["s1"; "note:n1"])) as Hs
    by (vm_compute; reflexivity).
  destruct (disconnect_cleans_the_rooms_it_sees rooms_kept "s1" _ st Hs)
    as (Hsock & _ & Husers & _).
  split; [exact Hs|]. split; [exact Hsock|]. exact (Husers "n1").
Defined.

(** X21.  When the listener finds no note room in [socket.rooms] (as
    when socket.io has emptied the set before firing ['disconnect']),
    [disconnect] leaves the room table untouched and emits nothing:
    the entries of the user stay in the rosters. *)
Theorem disconnect_without_rooms_keeps_entries
        (rooms_on_disconnect : list string → list string)
        (socketId : string) (sk : Socket.t) (st : State) :
  sockets st !! socketId = Some sk →
  Forall (λ room, startsWith room "note:" = false)
         (currentRooms socketId (rooms_on_disconnect (Socket.rooms sk))) →
  let result := disconnect rooms_on_disconnect socketId st in
  noteRooms result.1 = noteRooms st
  ∧ result.2 = []
  ∧ ∀ userId noteId, member userId noteId st → member userId noteId result.1.
Proof.
  intros Hs Hnone result. subst result. unfold disconnect. rewrite Hs.
  rewrite removeFromRoom_loop_none by done. simpl. split; [done|]. split; done.
Qed.

Lemma disconnect_without_rooms_keeps_entries_witness :
  let st := (run rooms_emptied both_in_n1).1 in
  let result := disconnect rooms_emptied "s1" st in
  sockets st !! "s1" = Some (Socket.mk alice ["s1"; "note:n1"])
  ∧ Forall (λ room, startsWith room "note:" = false)
           (currentRooms "s1" (rooms_emptied ["s1"; "note:n1"]))
  ∧ member "u1" "n1" st
  ∧ sockets result.1 !! "s1" = None
  ∧ member "u1" "n1" result.1.
Proof.
  intros st result.
  assert (sockets st !! "s1" = Some (Socket.mk alice ["s1"; "note:n1"])) as Hs
    by (vm_compute; reflexivity).
  assert (Forall (λ room, startsWith room "note:" = false)
                 (currentRooms "s1" (rooms_emptied ["s1"; "note:n1"]))) as Hnone
    by apply Forall_nil_2.
  assert (member "u1" "n1" st) as Hm by (apply (bool_decide_unpack _); vm_compute; exact I).
  destruct (disconnect_without_rooms_keeps_entries rooms_emptied "s1" _ st Hs Hnone)
    as (_ & _ & Hkeep).
  split; [exact Hs|]. split; [exact Hnone|]. split; [exact Hm|].
  split; [vm_compute; reflexivity|]. exact (Hkeep "u1" "n1" Hm).
Defined.

(** *** Leaving and joining *)

Lemma State_eta st : mkState (noteRooms st) (userSockets st) (sockets st) = st.
Proof. by destruct st. Qed.

Lemma handleUserLeaveRoom_state n uid st :
  (handleUserLeaveRoom n uid st).1 = with_noteRooms (tableAfterLeave n uid) st.
Proof.
  unfold handleUserLeaveRoom, tableAfterLeave, with_noteRooms.
  destruct (noteRooms st !! n) as [room|] eqn:Hn.
  - case_decide; simpl; [|done]. by rewrite delete_insert_eq.
  - simpl. by rewrite State_eta.
Qed.

Lemma tableAfterLeave_idemp n uid rooms :
  tableAfterLeave n uid (tableAfterLeave n uid rooms) = tableAfterLeave n uid rooms.
Proof.
  destruct (rooms !! n) as [room|] eqn:Hn.
  - destruct (decide (length (filter (λ u, SocketUser.userId u ≠ uid) (NoteRoom.users room)) = 0))
      as [Hlen|Hlen].
    + assert (tableAfterLeave n uid rooms = delete n rooms) as ->
        by (unfold tableAfterLeave; by rewrite Hn, decide_True).
      unfold tableAfterLeave. by rewrite lookup_delete_eq.
    + assert (tableAfterLeave n uid rooms
              = <[n := NoteRoom.mk (NoteRoom.noteId room)
                         (filter (λ u, SocketUser.userId u ≠ uid) (NoteRoom.users room))]> rooms)
        as -> by (unfold tableAfterLeave; by rewrite Hn, decide_False).
      unfold tableAfterLeave. rewrite lookup_insert_eq. simpl.
      rewrite filter_idemp. rewrite decide_False by done.
      by rewrite insert_insert_eq.
  - assert (tableAfterLeave n uid rooms = rooms) as ->
      by (unfold tableAfterLeave; by rewrite Hn).
    unfold tableAfterLeave. by rewrite Hn.
Qed.


Lemma socket_leave_idemp s room st :
  socket_leave s room (socket_leave s room st) = socket_leave s room st.
Proof.
  unfold socket_leave, with_sockets. simpl. f_equal.
  apply map_eq. intros k. destruct (decide (k = s)) as [->|Hk].
  - rewrite !lookup_alter_eq. destruct (sockets st !! s) as [sk|]; [|done].
    simpl. by rewrite filter_idemp.
  - by rewrite !lookup_alter_ne.
Qed.



(** X23.  Leaving twice is leaving once, as far as the state goes: a
    second [leave-note] for the same note from the same socket
    changes no table. *)
Theorem leave_note_twice_changes_nothing_more (socketId noteId : string) (sk : Socket.t)
        (st : State) :
  sockets st !! socketId = Some sk →
  (leave_note socketId noteId (leave_note socketId noteId st).1).1
  = (leave_note socketId noteId st).1.
Proof.
  intros Hs.
  set (uid := AuthPayload.userId (Socket.user sk)).
  assert ((leave_note socketId noteId st).1
          = with_noteRooms (tableAfterLeave noteId uid)
              (socket_leave socketId (roomName noteId) st)) as Hone.
  { unfold leave_note. rewrite Hs. apply handleUserLeaveRoom_state. }
  rewrite Hone.
  assert (sockets (with_noteRooms (tableAfterLeave noteId uid)
                     (socket_leave socketId (roomName noteId) st)) !! socketId
          = Some (Socket.mk (Socket.user sk)
                    (filter (λ r, r ≠ roomName noteId) (Socket.rooms sk)))) as Hs'.
  { simpl. by rewrite lookup_alter_eq, Hs. }
  unfold leave_note at 1. rewrite Hs'. simpl Socket.user. fold uid.
  rewrite handleUserLeaveRoom_state.
  change (socket_leave socketId (roomName noteId)
            (with_noteRooms (tableAfterLeave noteId uid)
               (socket_leave socketId (roomName noteId) st)))
    with (with_noteRooms (tableAfterLeave noteId uid)
            (socket_leave socketId (roomName noteId)
               (socket_leave socketId (roomName noteId) st))).
  rewrite socket_leave_idemp.
  unfold with_noteRooms. simpl. by rewrite tableAfterLeave_idemp.
Qed.

Lemma leave_note_twice_changes_nothing_more_witness :
  let st := (run rooms_kept both_in_n1).1 in
  sockets st !! "s1" = Some (Socket.mk alice ["s1"; "note:n1"])
  ∧ (leave_note "s1" "n1" (leave_note "s1" "n1" st).1).1 = (leave_note "s1" "n1" st).1.
Proof.
  intros st.
  assert (sockets st !! "s1" = Some (Socket.mk alice ["s1"; "note:n1"])) as Hs
    by (vm_compute; reflexivity).
  split; [exact Hs|]. exact (leave_note_twice_changes_nothing_more "s1" "n1" _ st Hs).
Defined.

(** X24.  A granted [join-note] is local.  It touches the roster of the
    note joined, where the user's entry is upserted after the leave if
    the socket was in that room already, and the rosters of the notes
    whose room the socket was in; every other roster, the rooms of
    every other socket and [userSockets] are as before. *)
Theorem join_note_is_local (socketId noteId : string) (note : INote.t) (sk : Socket.t)
        (st : State) :
  sockets st !! socketId = Some sk →
  isUserAuthorized note (AuthPayload.userId (Socket.user sk)) read = true →
  let userId := AuthPayload.userId (Socket.user sk) in
  let was_in := currentRooms socketId (Socket.rooms sk) in
  let after := (join_note socketId noteId (Resolved (Some note)) st).1 in
  getActiveUsersInNote noteId after =
    upsertEntry (Socket.user sk) socketId
      (if decide (roomName noteId ∈ was_in)
       then filter (λ u, SocketUser.userId u ≠ userId) (getActiveUsersInNote noteId st)
       else getActiveUsersInNote noteId st)
  ∧ (∀ other, other ≠ noteId → roomName other ∉ was_in →
       getActiveUsersInNote other after = getActiveUsersInNote other st)
  ∧ (∀ s, s ≠ socketId → sockets after !! s = sockets st !! s)
  ∧ userSockets after = userSockets st.
Proof.
  intros Hs Hauth userId was_in after.
  assert (denied (Some note) userId read = false) as Hd
    by (simpl; subst userId; by rewrite Hauth).
  subst after. rewrite (join_note_granted_state socketId noteId (Some note) st sk Hs Hd).
  split; [|split; [|split]].
  - rewrite enterRoom_users, decide_True by done. by rewrite leaveExistingRooms_users.
  - intros other Ho Hnot. rewrite enterRoom_users, decide_False by done.
    rewrite leaveExistingRooms_users. by rewrite decide_False.
  - intros s Hne. unfold enterRoom, socket_join. simpl.
    rewrite lookup_alter_ne by done. by apply leaveExistingRooms_other.
  - unfold enterRoom. simpl. apply leaveExistingRooms_userSockets.
Qed.

(** alice moves from the first note to the second; bob and his socket
    are not concerned. *)
Lemma join_note_is_local_witness :
  let st := (run rooms_kept both_in_n1).1 in
  let after := (join_note "s1" "n2" (Resolved (Some note2)) st).1 in
  sockets st !! "s1" = Some (Socket.mk alice ["s1"; "note:n1"])
  ∧ isUserAuthorized note2 "u1" read = true
  ∧ "s2" ≠ "s1"
  ∧ sockets after !! "s2" = sockets st !! "s2"
  ∧ userSockets after = userSockets st.
Proof.
  intros st after.
  assert (sockets st !! "s1" = Some (Socket.mk alice ["s1"; "note:n1"])) as Hs
    by (vm_compute; reflexivity).
  assert (isUserAuthorized note2 "u1" read = true) as Hr by (vm_compute; reflexivity).
  assert ("s2" ≠ "s1") as Hne by discriminate.
  destruct (join_note_is_local "s1" "n2" note2 _ st Hs Hr) as (_ & _ & Hsock & Hus).
  split; [exact Hs|]. split; [exact Hr|]. split; [exact Hne|].
  split; [exact (Hsock "s2" Hne)|exact Hus].
Defined.
